(** * Path construction (llarp/path.hpp) and the embedding C ABI
      (llarp/lokinet_shared.cpp): a shallow embedding and its properties.

    The development follows the two source files:
    - [Buffers]       fixed-size byte buffers ([AlignedBuffer]) and [memcpy];
    - [Transit]       [TransitHopInfo] (equality, ordering, hash), [TransitHop];
    - [PathBuild]     [AsyncPathKeyExchangeContext]: [AsyncGenerateKeys],
                      [GenerateNextKey], [HandleDone] and the two executors;
    - [LokinetShared] the exported functions of lokinet_shared.cpp.
    The properties follow the definitions, one module for each of the
    three: [TransitProps], [PathBuildProps], [LokinetSharedProps]. *)

From Stdlib Require Import ZArith Lia.
From Stdlib.Strings Require Import Byte Ascii String.
From stdpp Require Import base list gmap strings.

Local Open Scope Z_scope.

(** ** Fixed-size byte buffers *)
Module Buffers.

Definition byte_t := byte.

Definition byte_val (b : byte_t) : Z := Z.of_N (Byte.to_N b).

(** Modelled from the spec: the buffer sizes are constants of llarp headers
    that are not part of the sources at hand; section 3 of the specification
    gives 16 bytes for a path id, 32 for a router id and for a shared
    secret, 24 for a tunnel nonce. *)
Definition PATHIDSIZE : nat := 16.
Definition PUBKEYSIZE : nat := 32.
Definition SHAREDKEYSIZE : nat := 32.
Definition TUNNONCESIZE : nat := 24.

(** [sizeof(std::size_t)] on the LP64 targets the router is built for. *)
Definition sizeof_size_t : nat := 8.
Definition SIZE_MAX : Z := 2 ^ 64 - 1.

(** [memcpy(dst, src, n)]: the first [n] bytes of [dst] are replaced by
    the first [n] bytes of [src]. *)
Definition memcpy (dst src : list byte_t) (n : nat) : list byte_t :=
  take n src ++ drop n dst.

(** The value of a [size_t] object given its object representation
    (little endian, least significant byte first). *)
Fixpoint size_t_of_bytes (bs : list byte_t) : Z :=
  match bs with
  | [] => 0
  | b :: bs' => byte_val b + 256 * size_t_of_bytes bs'
  end.

(** [memcmp(a, b, n)]: sign of the first differing byte, compared as
    unsigned char. *)
Fixpoint memcmp (a b : list byte_t) (n : nat) : Z :=
  match n, a, b with
  | S n', x :: a', y :: b' =>
      if byte_val x <? byte_val y then -1
      else if byte_val y <? byte_val x then 1
      else memcmp a' b' n'
  | _, _, _ => 0
  end.

(** Comparison of two buffers of [sz] bytes with [memcmp], the usual way
    to order and to compare fixed-size buffers. *)
Definition memcmp_lt (sz : nat) (a b : list byte_t) : bool :=
  memcmp a b sz <? 0.

Definition memcmp_eq (sz : nat) (a b : list byte_t) : bool :=
  memcmp a b sz =? 0.

Definition zero_buffer (sz : nat) : list byte_t := replicate sz x00.

End Buffers.

(** ** Transit-side records *)
Module Transit.
Import Buffers.

Record TransitHopInfo := mkTransitHopInfo {
  pathID : list byte_t;       (* PathID_t *)
  upstream : list byte_t;     (* RouterID *)
  downstream : list byte_t    (* RouterID *)
}.

Definition wf_info (a : TransitHopInfo) : Prop :=
  length (pathID a) = PATHIDSIZE
  ∧ length (upstream a) = PUBKEYSIZE
  ∧ length (downstream a) = PUBKEYSIZE.

(** The operators of [TransitHopInfo] are written with [operator==] and
    [operator<] of [PathID_t] and of [RouterID], which are declared in
    llarp/aligned.hpp and llarp/router_id.hpp, outside the sources at hand:
    they are parameters here. *)
Section Operators.
Context (PathID_eq PathID_lt RouterID_eq RouterID_lt
           : list byte_t → list byte_t → bool).

(** [TransitHopInfo::operator==] *)
Definition info_eqb (a other : TransitHopInfo) : bool :=
  PathID_eq (pathID a) (pathID other)
  && RouterID_eq (upstream a) (upstream other)
  && RouterID_eq (downstream a) (downstream other).

(** [TransitHopInfo::operator!=] *)
Definition info_neqb (a other : TransitHopInfo) : bool :=
  negb (info_eqb a other).

(** [TransitHopInfo::operator<] *)
Definition info_ltb (a other : TransitHopInfo) : bool :=
  PathID_lt (pathID a) (pathID other)
  || RouterID_lt (upstream a) (upstream other)
  || RouterID_lt (downstream a) (downstream other).

End Operators.

(** [operator<] with the buffers ordered by [memcmp]. *)
Definition info_ltb_memcmp : TransitHopInfo → TransitHopInfo → bool :=
  info_ltb (memcmp_lt PATHIDSIZE) (memcmp_lt PUBKEYSIZE).

(** A relation on [TransitHopInfo] is asymmetric when no two values are
    each below the other. *)
Definition asymmetric (lt : TransitHopInfo → TransitHopInfo → bool) : Prop :=
  ∀ a b, lt a b = true → lt b a = false.

(** [TransitHopInfo::Hash::operator()].  The three locals [idx0], [idx1],
    [idx2] are declared without initialiser: their object representations
    before the [memcpy] are whatever the stack holds, here [u0], [u1],
    [u2]. *)
Definition Hash (u0 u1 u2 : list byte_t) (a : TransitHopInfo) : Z :=
  let idx0 := memcpy u0 (upstream a) sizeof_size_t in
  let idx1 := memcpy u1 (downstream a) sizeof_size_t in
  let idx2 := memcpy u2 (pathID a) sizeof_size_t in
  Z.lxor (Z.lxor (size_t_of_bytes idx0) (size_t_of_bytes idx1))
         (size_t_of_bytes idx2).

(** [PathIDHash::operator()] *)
Definition PathIDHash (u0 : list byte_t) (a : list byte_t) : Z :=
  size_t_of_bytes (memcpy u0 a sizeof_size_t).

Record TransitHop := mkTransitHop {
  info : TransitHopInfo;
  pathKey : list byte_t;      (* SharedSecret *)
  started : Z;                (* llarp_time_t, milliseconds *)
  lifetime : Z;               (* llarp_time_t, milliseconds *)
  version : Z                 (* llarp_proto_version_t *)
}.

(** [TransitHop() = default]: the members without initialiser are left
    as they are ([i], [k], [s], [v]); [lifetime] has the default member
    initialiser of the class. *)
Definition TransitHop_default (i : TransitHopInfo) (k : list byte_t)
    (s v : Z) : TransitHop :=
  {| info := i; pathKey := k; started := s;
     lifetime := 360000;
     version := v |}.

(** The constant the specification names for the default path lifetime,
    ten minutes in milliseconds. *)
Definition DEFAULT_PATH_LIFETIME_MS : Z := 600000.
Definition ten_minutes_ms : Z := 10 * 60 * 1000.

End Transit.

(** ** The path build pipeline *)
Module PathBuild.
Import Buffers.

(** Modelled from the spec: [MAXHOPS] is declared in llarp/path.h, which is
    not part of the sources at hand; section 6 of the specification gives
    [MAXHOPS = 8]. *)
Definition MAXHOPS : nat := 8.

(** The literal frame size of [LRCM->frames.emplace_back(256)]. *)
Definition FRAME_SIZE : nat := 256.

(** *** Randomness.  [randombytes] reads the process-wide generator; a run
    of the program sees one stream of bytes and a read position. *)
Record rng := mkRng { stream : nat → byte_t; pos : nat }.

Definition randombytes (n : nat) (r : rng) : list byte_t * rng :=
  (map (stream r) (seq (pos r) n), mkRng (stream r) (pos r + n)).

(** [AlignedBuffer::Randomize] and [EncryptedFrame::Randomize]: the whole
    buffer is overwritten with fresh bytes. *)
Definition Randomize (buf : list byte_t) (r : rng) : list byte_t * rng :=
  randombytes (length buf) r.

(** *** Records of path.hpp *)
Record llarp_rc := mkRC { enckey : list byte_t; pubkey : list byte_t }.

Record PathHopConfig := mkHop {
  pathID : list byte_t;      (* PathID_t *)
  router : llarp_rc;
  commkey : list byte_t;     (* SecretKey *)
  shared : list byte_t;      (* SharedSecret *)
  upstream : list byte_t;    (* RouterID *)
  nonce : list byte_t        (* TunnelNonce *)
}.

Definition set_pathID (v : list byte_t) (h : PathHopConfig) :=
  mkHop v (router h) (commkey h) (shared h) (upstream h) (nonce h).
Definition set_commkey (v : list byte_t) (h : PathHopConfig) :=
  mkHop (pathID h) (router h) v (shared h) (upstream h) (nonce h).
Definition set_shared (v : list byte_t) (h : PathHopConfig) :=
  mkHop (pathID h) (router h) (commkey h) v (upstream h) (nonce h).
Definition set_upstream (v : list byte_t) (h : PathHopConfig) :=
  mkHop (pathID h) (router h) (commkey h) (shared h) v (nonce h).
Definition set_nonce (v : list byte_t) (h : PathHopConfig) :=
  mkHop (pathID h) (router h) (commkey h) (shared h) (upstream h) v.

Inductive PathStatus :=
  ePathBuilding | ePathEstablished | ePathTimeout | ePathExpired.

Record Path := mkPath {
  hops : list PathHopConfig;   (* HopList = std::vector<PathHopConfig> *)
  buildStarted : Z;
  status : PathStatus
}.

Definition set_hops (hs : list PathHopConfig) (p : Path) : Path :=
  mkPath hs (buildStarted p) (status p).

Inductive PathBuildStatus :=
  ePathBuildSuccess | ePathBuildTimeout | ePathBuildReject.

(** [LR_CommitMessage]: the container of frames, empty when the message is
    created with [new LR_CommitMessage].  An [EncryptedFrame] is its byte
    buffer. *)
Record LR_CommitMessage := mkLRCM { frames : list (list byte_t) }.

Definition LR_CommitMessage_new : LR_CommitMessage := mkLRCM [].

(** [EncryptedFrame(sz)]: a buffer of [sz] bytes. *)
Definition EncryptedFrame_new (sz : nat) : list byte_t := zero_buffer sz.

(** *** Collaborators.  [llarp_crypto] is a table of function pointers; a
    C function that fills an out-parameter and returns [bool] is a
    function to a pair of the flag and the bytes written. *)
Record llarp_crypto := mkCrypto {
  encryption_keygen : rng → list byte_t * rng;
  dh_client : list byte_t → list byte_t → list byte_t → list byte_t
              → bool * list byte_t
    (* dh_client(out shared, their enckey, our commkey, nonce) *)
}.

(** The record codec and the frame cipher (llarp/messages/relay_commit.hpp
    and llarp/encrypted_frame.hpp) are members of classes declared outside
    path.hpp:  [BEncode] of a default-constructed [LR_CommitRecord] into a
    buffer from offset [cur], and [EncryptedFrame::EncryptInPlace]. *)
Record frame_codec := mkCodec {
  OverheadSize : nat;
  BEncode_record : list byte_t → nat → bool * list byte_t;
  EncryptInPlace : list byte_t → list byte_t → list byte_t → llarp_crypto
                   → rng → bool * list byte_t * rng
}.

(** *** Jobs, events, the context and the world *)
Inductive job := JobGenerateNextKey | JobHandleDone.

(** What a run does, in program order: one event per statement of
    [GenerateNextKey] that matters to the build, one per job queued.  The
    trace is ghost state: the program does not keep it. *)
Inductive event :=
| EvKeygen (i : nat)
| EvRandomizeNonce (i : nat)
| EvDhClient (i : nat)
| EvRandomizePathID (i : nat)
| EvSetUpstream (i : nat)
| EvBEncode (i : nat)
| EvEncryptInPlace (i : nat)
| EvQueueWorker (i : nat)   (* {ctx, &GenerateNextKey} queued, ctx->idx = i *)
| EvQueueLogic              (* {ctx, &HandleDone} queued *)
| EvResult                  (* ctx->result(ctx) called *)
| EvError (msg : string)
| EvAbort.

Global Instance event_eq_dec : EqDecision event.
Proof. solve_decision. Defined.

(** The context of one build.  Its [worker] and [logic] members point to
    the two executors, whose queues are kept in the world below; [user] is
    handed to the handler and never read here.  [idx] is a [size_t]: it
    stops at [hops.size()], far from where it would wrap around. *)
Record AsyncPathKeyExchangeContext := mkCtx {
  path : option Path;              (* Path*, nullptr at construction *)
  result : option nat;             (* Handler, nullptr at construction *)
  idx : nat;                       (* size_t *)
  crypto : llarp_crypto;
  LRCM : option LR_CommitMessage   (* LR_CommitMessage* *)
}.

(** [AsyncPathKeyExchangeContext(llarp_crypto* c)] *)
Definition AsyncPathKeyExchangeContext_new (c : llarp_crypto) :=
  mkCtx None None 0 c None.

Record world := mkWorld {
  ctx : AsyncPathKeyExchangeContext;
  worker_queue : list job;   (* jobs queued on ctx->worker *)
  logic_queue : list job;    (* jobs queued on ctx->logic *)
  entropy : rng;
  trace : list event
}.

Inductive outcome :=
| Returned (w : world)    (* the function returned *)
| Aborted (w : world)     (* abort() was called: the process is gone *)
| Undefined.              (* null pointer or out-of-range access *)

Section Pipeline.
Context (codec : frame_codec).

(** [static void GenerateNextKey(void* u)] *)
Definition GenerateNextKey (w : world) : outcome :=
  let c := ctx w in
  match path c, LRCM c with
  | Some p, Some m =>
    let i := idx c in
    match hops p !! i with
    | None => Undefined
    | Some hop =>
      (* generate key *)
      let '(k, r1) := encryption_keygen (crypto c) (entropy w) in
      let hop := set_commkey k hop in
      let '(n, r2) := Randomize (nonce hop) r1 in
      let hop := set_nonce n hop in
      (* do key exchange *)
      let '(ok, s) := dh_client (crypto c) (shared hop)
                        (enckey (router hop)) (commkey hop) (nonce hop) in
      let hop := set_shared s hop in
      let tr := trace w ++ [EvKeygen i; EvRandomizeNonce i; EvDhClient i] in
      if negb ok then
        Aborted (mkWorld
          (mkCtx (Some (set_hops (<[i := hop]> (hops p)) p))
                 (result c) i (crypto c) (Some m))
          (worker_queue w) (logic_queue w) r2
          (tr ++ [EvError "Failed to generate shared key for path build";
                  EvAbort]))
      else
      (* randomize hop's path id *)
      let '(pid, r3) := Randomize (pathID hop) r2 in
      let hop := set_pathID pid hop in
      let tr := tr ++ [EvRandomizePathID i] in
      match frames m !! i with
      | None => Undefined
      | Some frame =>
        let i' := S i in                     (* ++ctx->idx *)
        let hop :=
          match hops p !! i' with
          | Some next =>                     (* idx < hops.size() *)
              set_upstream (pubkey (router next)) hop
          | None => set_upstream (pubkey (router hop)) hop
          end in
        let p' := set_hops (<[i := hop]> (hops p)) p in
        let tr := tr ++ [EvSetUpstream i; EvBEncode i] in
        (* generate record: buf->cur = buf->base + OverheadSize *)
        let '(ok, frame) := BEncode_record codec frame (OverheadSize codec) in
        if negb ok then
          Aborted (mkWorld
            (mkCtx (Some p') (result c) i' (crypto c)
                   (Some (mkLRCM (<[i := frame]> (frames m)))))
            (worker_queue w) (logic_queue w) r3
            (tr ++ [EvError "Failed to generate Commit Record"; EvAbort]))
        else
        (* rewind, then encrypt *)
        let tr := tr ++ [EvEncryptInPlace i] in
        let '(ok, frame, r4) :=
          EncryptInPlace codec frame (commkey hop) (enckey (router hop))
                         (crypto c) r3 in
        let m' := mkLRCM (<[i := frame]> (frames m)) in
        if negb ok then
          Aborted (mkWorld
            (mkCtx (Some p') (result c) i' (crypto c) (Some m'))
            (worker_queue w) (logic_queue w) r4
            (tr ++ [EvError "Failed to encrypt LRCR"; EvAbort]))
        else if bool_decide (i' < length (hops p'))%nat then
          (* next hop *)
          Returned (mkWorld
            (mkCtx (Some p') (result c) i' (crypto c) (Some m'))
            (worker_queue w ++ [JobGenerateNextKey]) (logic_queue w) r4
            (tr ++ [EvQueueWorker i']))
        else
          (* farthest hop *)
          Returned (mkWorld
            (mkCtx (Some p') (result c) i' (crypto c) (Some m'))
            (worker_queue w) (logic_queue w ++ [JobHandleDone]) r4
            (tr ++ [EvQueueLogic]))
      end
    end
  | _, _ => Undefined
  end.

(** [static void HandleDone(void* u)]: calls [ctx->result(ctx)].  What the
    handler of the user does is its own business; the call is recorded. *)
Definition HandleDone (w : world) : outcome :=
  match result (ctx w) with
  | None => Undefined
  | Some _ =>
      Returned (mkWorld (ctx w) (worker_queue w) (logic_queue w)
                        (entropy w) (trace w ++ [EvResult]))
  end.

(** The loop of [AsyncGenerateKeys]: [n] more frames are appended, each
    created with 256 bytes and randomized. *)
Fixpoint emplace_random_frames (n : nat) (m : LR_CommitMessage) (r : rng)
    : LR_CommitMessage * rng :=
  match n with
  | O => (m, r)
  | S n' =>
      let '(f, r') := Randomize (EncryptedFrame_new FRAME_SIZE) r in
      emplace_random_frames n' (mkLRCM (frames m ++ [f])) r'
  end.

(** [void AsyncGenerateKeys(Path* p, llarp_logic* l,
                            llarp_threadpool* pool, User* u, Handler func)] *)
Definition AsyncGenerateKeys (p : Path) (func : nat) (w : world) : world :=
  let c := ctx w in
  let '(m, r) := emplace_random_frames MAXHOPS LR_CommitMessage_new
                                       (entropy w) in
  mkWorld (mkCtx (Some p) (Some func) (idx c) (crypto c) (Some m))
          (worker_queue w ++ [JobGenerateNextKey]) (logic_queue w) r
          (trace w ++ [EvQueueWorker (idx c)]).

(** *** The executors.  A worker thread takes the oldest job of the pool;
    the logic thread takes the oldest job of its queue.  A build has at
    most one job queued at any time (see [build_inv] below), so which
    executor is served first makes no difference to it. *)
Definition run_job (j : job) (w : world) : outcome :=
  match j with
  | JobGenerateNextKey => GenerateNextKey w
  | JobHandleDone => HandleDone w
  end.

Inductive run_result :=
| Idle (w : world)         (* both queues empty: nothing left to run *)
| Crashed (w : world)      (* a job called abort() *)
| Faulted                  (* a job had undefined behaviour *)
| Pending (w : world).     (* jobs are left after the given steps *)

Definition next_job (w : world) : option (job * world) :=
  match worker_queue w, logic_queue w with
  | j :: q, _ =>
      Some (j, mkWorld (ctx w) q (logic_queue w) (entropy w) (trace w))
  | [], j :: q =>
      Some (j, mkWorld (ctx w) [] q (entropy w) (trace w))
  | [], [] => None
  end.

Fixpoint run (fuel : nat) (w : world) : run_result :=
  match next_job w with
  | None => Idle w
  | Some (j, w') =>
      match fuel with
      | O => Pending w
      | S fuel' =>
          match run_job j w' with
          | Returned w'' => run fuel' w''
          | Aborted w'' => Crashed w''
          | Undefined => Faulted
          end
      end
  end.

(** A fresh process: a context made for [c], idle executors. *)
Definition initial_world (c : llarp_crypto) (r : rng) : world :=
  mkWorld (AsyncPathKeyExchangeContext_new c) [] [] r [].

(** A whole build: [AsyncGenerateKeys] on a fresh context, then the
    executors run until nothing is left to do. *)
Definition build (c : llarp_crypto) (r : rng) (p : Path) (func : nat)
    (fuel : nat) : run_result :=
  run fuel (AsyncGenerateKeys p func (initial_world c r)).

End Pipeline.

(** *** What a build is expected to do *)

(** The events of the job that handles hop [i] of a path with [n] hops. *)
Definition hop_events (n i : nat) : list event :=
  [EvKeygen i; EvRandomizeNonce i; EvDhClient i; EvRandomizePathID i;
   EvSetUpstream i; EvBEncode i; EvEncryptInPlace i;
   if bool_decide (S i < n)%nat then EvQueueWorker (S i) else EvQueueLogic].

(** The trace once the first [k] hops are done. *)
Definition trace_upto (n k : nat) : list event :=
  EvQueueWorker 0 :: flat_map (hop_events n) (seq 0 k).

(** The trace of a build that ran to completion. *)
Definition full_trace (n : nat) : list event :=
  trace_upto n n ++ [EvResult].

Definition hops_of (w : world) : list PathHopConfig :=
  from_option hops [] (path (ctx w)).

Definition frames_of (w : world) : list (list byte_t) :=
  from_option frames [] (LRCM (ctx w)).

(** Position of the first occurrence of an event, and "[a] happens before
    [b]" on a trace. *)
Fixpoint index_of (e : event) (l : list event) : option nat :=
  match l with
  | [] => None
  | x :: l' => if decide (x = e) then Some O else S <$> index_of e l'
  end.

Definition occurs_before (a b : event) (l : list event) : bool :=
  match index_of a l, index_of b l with
  | Some x, Some y => bool_decide (x < y)%nat
  | _, _ => false
  end.

Definition count_event (e : event) (l : list event) : nat :=
  length (filter (λ x, x = e) l).

Section Invariants.
Context (c : llarp_crypto) (p0 : Path) (func : nat)
        (m0 : list (list byte_t)).

Definition hops_inv (k : nat) (hs : list PathHopConfig) : Prop :=
  length hs = length (hops p0)
  ∧ map router hs = map router (hops p0)
  ∧ ∀ j h, (j < k)%nat → hs !! j = Some h →
      upstream h = match hops p0 !! S j with
                   | Some next => pubkey (router next)
                   | None => pubkey (router h)
                   end.

Definition frames_inv (k : nat) (fs : list (list byte_t)) : Prop :=
  length fs = MAXHOPS ∧ ∀ j, (k ≤ j)%nat → fs !! j = m0 !! j.

(** The context between two jobs, [k] hops done. *)
Definition data_inv (k : nat) (w : world) : Prop :=
  (∃ hs, path (ctx w) = Some (set_hops hs p0) ∧ hops_inv k hs)
  ∧ (∃ fs, LRCM (ctx w) = Some (mkLRCM fs) ∧ frames_inv k fs)
  ∧ result (ctx w) = Some func
  ∧ crypto (ctx w) = c
  ∧ idx (ctx w) = k
  ∧ trace w = trace_upto (length (hops p0)) k.

Definition build_inv (k : nat) (w : world) : Prop :=
  data_inv k w
  ∧ worker_queue w =
      (if bool_decide (k < length (hops p0))%nat
       then [JobGenerateNextKey] else [])
  ∧ logic_queue w =
      (if bool_decide (k < length (hops p0))%nat
       then [] else [JobHandleDone]).

(** The process after [abort()] in the job of hop [k]. *)
Definition aborted_inv (k : nat) (w : world) : Prop :=
  (∃ fs, LRCM (ctx w) = Some (mkLRCM fs) ∧ frames_inv (S k) fs)
  ∧ worker_queue w = [] ∧ logic_queue w = []
  ∧ ∃ n msg, (n ≤ 7)%nat
      ∧ trace w = trace_upto (length (hops p0)) k
                  ++ take n (hop_events (length (hops p0)) k)
                  ++ [EvError msg; EvAbort].

(** The process once the completion handler has run. *)
Definition done_inv (w : world) : Prop :=
  (∃ hs, path (ctx w) = Some (set_hops hs p0)
         ∧ hops_inv (length (hops p0)) hs)
  ∧ (∃ fs, LRCM (ctx w) = Some (mkLRCM fs)
           ∧ frames_inv (length (hops p0)) fs)
  ∧ idx (ctx w) = length (hops p0)
  ∧ worker_queue w = [] ∧ logic_queue w = []
  ∧ trace w = full_trace (length (hops p0)).

End Invariants.

(** *** The properties of a build, as predicates on runs *)

(** Frame [j] as [AsyncGenerateKeys] fills it: 256 bytes read from the
    generator, after the [j] frames before it. *)
Definition random_frame (r : rng) (j : nat) : list byte_t :=
  map (stream r) (seq (pos r + FRAME_SIZE * j) FRAME_SIZE).

Definition initial_frames (r : rng) : list (list byte_t) :=
  map (random_frame r) (seq 0 MAXHOPS).

(** The hop a step event belongs to. *)
Definition hop_of (e : event) : option nat :=
  match e with
  | EvKeygen i | EvRandomizeNonce i | EvDhClient i | EvRandomizePathID i
  | EvSetUpstream i | EvBEncode i | EvEncryptInPlace i => Some i
  | _ => None
  end.

(** The seven steps of hop 0, then those of hop 1, ..., of hop [n-1]. *)
Definition hops_in_order (n : nat) (tr : list event) : Prop :=
  omap hop_of tr = flat_map (replicate 7) (seq 0 n).

(** The job of hop [i+1] is queued once, right after the frame of hop [i]
    is encrypted, and no step of hop [i+1] comes before that. *)
Definition queued_by_previous_hop (n : nat) (tr : list event) : Prop :=
  ∀ i, (S i < n)%nat →
    ∃ l1 l2, tr = l1 ++ [EvEncryptInPlace i; EvQueueWorker (S i)] ++ l2
             ∧ (EvQueueWorker (S i) ∉ l1) ∧ (EvQueueWorker (S i) ∉ l2)
             ∧ (EvKeygen (S i) ∉ l1).

(** [HandleDone] is queued once, right after the last frame is encrypted,
    and the handler runs once, after that. *)
Definition handle_done_once (n : nat) (tr : list event) : Prop :=
  ∃ l1, tr = l1 ++ [EvEncryptInPlace (n - 1); EvQueueLogic; EvResult]
        ∧ (EvQueueLogic ∉ l1) ∧ (EvResult ∉ l1).

(** What holds of a build that was given time to end. *)
Definition build_order (n : nat) (res : run_result) : Prop :=
  match res with
  | Idle w' =>
      trace w' = full_trace n
      ∧ hops_in_order n (trace w')
      ∧ queued_by_previous_hop n (trace w')
      ∧ handle_done_once n (trace w')
  | Crashed w' =>
      (∃ k m, (k < n)%nat ∧ (m ≤ 7)%nat
         ∧ omap hop_of (trace w')
           = flat_map (replicate 7) (seq 0 k) ++ replicate m k)
      ∧ (EvQueueLogic ∉ trace w') ∧ (EvResult ∉ trace w')
      ∧ last (trace w') = Some EvAbort
  | Faulted | Pending _ => False
  end.

(** Every hop names the next one; the last hop names itself. *)
Definition upstream_chain (hs : list PathHopConfig) : Prop :=
  (∀ i h next, hs !! i = Some h → hs !! S i = Some next →
     upstream h = pubkey (router next))
  ∧ (∀ h, last hs = Some h → upstream h = pubkey (router h)).

Definition world_of (res : run_result) : option world :=
  match res with
  | Idle w | Crashed w | Pending w => Some w
  | Faulted => None
  end.

(** The three steps of a job that can report failure. *)
Inductive build_failure := DhClientFailed | BEncodeFailed | EncryptFailed.

Definition failure_message (f : build_failure) : string :=
  match f with
  | DhClientFailed => "Failed to generate shared key for path build"
  | BEncodeFailed => "Failed to generate Commit Record"
  | EncryptFailed => "Failed to encrypt LRCR"
  end.

(** The first step of the job for the current hop that reports failure,
    if one does: the calls of [GenerateNextKey], with their arguments. *)
Definition failing_step (codec : frame_codec) (w : world)
    : option build_failure :=
  let c := ctx w in
  match path c, LRCM c with
  | Some p, Some m =>
    match hops p !! idx c with
    | None => None
    | Some hop =>
      let '(k, r1) := encryption_keygen (crypto c) (entropy w) in
      let '(n, r2) := Randomize (nonce hop) r1 in
      let '(ok, s) := dh_client (crypto c) (shared hop)
                        (enckey (router hop)) k n in
      if negb ok then Some DhClientFailed else
      let '(pid, r3) := Randomize (pathID hop) r2 in
      match frames m !! idx c with
      | None => None
      | Some frame =>
        let '(ok, frame) :=
          BEncode_record codec frame (OverheadSize codec) in
        if negb ok then Some BEncodeFailed else
        let '(ok, _, _) :=
          EncryptInPlace codec frame k (enckey (router hop))
                         (crypto c) r3 in
        if negb ok then Some EncryptFailed else None
      end
    end
  | _, _ => None
  end.

(** No step can report failure, whatever it is given. *)
Definition never_fails (codec : frame_codec) (c : llarp_crypto) : Prop :=
  (∀ s e k n, (dh_client c s e k n).1 = true)
  ∧ (∀ f cur, (BEncode_record codec f cur).1 = true)
  ∧ (∀ f k e r, (EncryptInPlace codec f k e c r).1.1 = true).

(** The hop the context points at. *)
Definition current_hop (w : world) : option PathHopConfig :=
  hops_of w !! idx (ctx w).

(** The order of the randomizations and the key exchange in one job
    for hop [i], on the events [evs] the job added. *)
Definition exchange_order (i : nat) (evs : list event) : Prop :=
  occurs_before (EvRandomizeNonce i) (EvDhClient i) evs = true
  ∧ (EvRandomizePathID i ∈ evs →
     occurs_before (EvDhClient i) (EvRandomizePathID i) evs = true).

(** *** The jobs of a build, one by one *)

(** The world in which the job that is next starts, when that job is a
    [GenerateNextKey] job. *)
Definition next_hop_job (w : world) : option world :=
  match next_job w with
  | Some (JobGenerateNextKey, w') => Some w'
  | _ => None
  end.

(** The state of a build after [k] jobs, when jobs are left to run. *)
Definition after_jobs (codec : frame_codec) (c : llarp_crypto) (r : rng)
    (p : Path) (func : nat) (k : nat) : option world :=
  match build codec c r p func k with
  | Pending w => Some w
  | _ => None
  end.

(** The world in which job number [k] of a build starts, when that job is
    a [GenerateNextKey] job. *)
Definition hop_job (codec : frame_codec) (c : llarp_crypto) (r : rng)
    (p : Path) (func : nat) (k : nat) : option world :=
  after_jobs codec c r p func k ≫= next_hop_job.

(** Job number [k] of the build is the job of hop [k]: after [k] jobs the
    pool holds that one job and the logic thread holds none, and the job
    starts in [wk] with [idx = k]. *)
Definition hop_turn (codec : frame_codec) (c : llarp_crypto) (r : rng)
    (p : Path) (func : nat) (k : nat) (wk : world) : Prop :=
  ∃ w, after_jobs codec c r p func k = Some w
     ∧ worker_queue w = [JobGenerateNextKey] ∧ logic_queue w = []
     ∧ next_hop_job w = Some wk
     ∧ idx (ctx wk) = k.

(** No step fails in the jobs of the first [n] hops of the build. *)
Definition no_step_fails (codec : frame_codec) (c : llarp_crypto) (r : rng)
    (p : Path) (func : nat) (n : nat) : Prop :=
  ∀ k wk, (k < n)%nat → hop_job codec c r p func k = Some wk →
    failing_step codec wk = None.

(** The job of hop [j] ran and none of its steps failed. *)
Definition hop_ok (codec : frame_codec) (c : llarp_crypto) (r : rng)
    (p : Path) (func : nat) (j : nat) : Prop :=
  ∃ wj, hop_turn codec c r p func j wj ∧ failing_step codec wj = None.

(** The number of step events of a job before the step [f] that failed
    was found to have failed. *)
Definition steps_done (f : build_failure) : nat :=
  match f with
  | DhClientFailed => 3
  | BEncodeFailed => 6
  | EncryptFailed => 7
  end.

(** The job of hop [k] ran, its step [f] failed, and the job aborted the
    process, leaving [w']. *)
Definition hop_crash (codec : frame_codec) (c : llarp_crypto) (r : rng)
    (p : Path) (func : nat) (k : nat) (f : build_failure) (w' : world)
    : Prop :=
  ∃ wk, hop_turn codec c r p func k wk
      ∧ failing_step codec wk = Some f
      ∧ GenerateNextKey codec wk = Aborted w'.

(** What happened in a build that was given time to end, job by job, on
    the queues and the context themselves. *)
Definition build_account (codec : frame_codec) (c : llarp_crypto) (r : rng)
    (p : Path) (func : nat) (res : run_result) : Prop :=
  let n := length (hops p) in
  match res with
  | Idle w' =>
      (∀ k, (k < n)%nat → hop_ok codec c r p func k)
      ∧ ∃ wn, after_jobs codec c r p func n = Some wn
            ∧ idx (ctx wn) = n
            ∧ worker_queue wn = [] ∧ logic_queue wn = [JobHandleDone]
            ∧ HandleDone (mkWorld (ctx wn) [] [] (entropy wn) (trace wn))
              = Returned w'
  | Crashed w' =>
      ∃ k f, (k < n)%nat
         ∧ (∀ j, (j < k)%nat → hop_ok codec c r p func j)
         ∧ hop_crash codec c r p func k f w'
         ∧ trace w' = trace_upto n k ++ take (steps_done f) (hop_events n k)
                      ++ [EvError (failure_message f); EvAbort]
         ∧ queued_by_previous_hop (S k) (trace w')
         ∧ (∀ i, (k ≤ i)%nat → EvQueueWorker (S i) ∉ trace w')
  | Faulted | Pending _ => False
  end.

(** The key exchange of the job for the hop [hop], as the job finds the
    generator: the key it generates, the nonce it draws after the key, the
    generator after both, and what [dh_client] answers when it is given
    that key and that nonce. *)
Record exchange := mkExchange {
  ex_key : list byte_t;
  ex_nonce : list byte_t;
  ex_entropy : rng;
  ex_ok : bool;
  ex_shared : list byte_t
}.

Definition key_exchange (w : world) (hop : PathHopConfig) : exchange :=
  let c := crypto (ctx w) in
  let '(k, r1) := encryption_keygen c (entropy w) in
  let '(n, r2) := Randomize (nonce hop) r1 in
  let '(ok, s) := dh_client c (shared hop) (enckey (router hop)) k n in
  mkExchange k n r2 ok s.

(** *** Small instances used to run the model *)

Definition demo_rng : rng :=
  mkRng (λ n, default x00 (Byte.of_nat (n `mod` 256))) 0.

(** Key generation draws four bytes; the key exchange always succeeds. *)
Definition demo_crypto : llarp_crypto :=
  mkCrypto (λ r, randombytes 4 r) (λ _ e k n, (true, take 4 e)).

(** A key exchange that always reports failure. *)
Definition failing_crypto : llarp_crypto :=
  mkCrypto (λ r, randombytes 4 r) (λ s _ _ _, (false, s)).

Definition demo_codec : frame_codec :=
  mkCodec 2 (λ f cur, (true, take cur f ++ [x01] ++ drop (S cur) f))
            (λ f k e c r, (true, reverse f, r)).

Definition demo_hop (b : byte_t) : PathHopConfig :=
  mkHop (zero_buffer PATHIDSIZE) (mkRC [b; b] [b]) [] []
        (zero_buffer 1) (zero_buffer TUNNONCESIZE).

Definition demo_path1 : Path := mkPath [demo_hop x0a] 0 ePathBuilding.

Definition demo_path3 : Path :=
  mkPath [demo_hop x0a; demo_hop x0b; demo_hop x0c] 0 ePathBuilding.

(** A world in which the job of hop 0 of a one-hop path is about to run,
    with a key exchange that reports failure. *)
Definition demo_failing_world : world :=
  mkWorld (mkCtx (Some demo_path1) (Some 7%nat) 0 failing_crypto
                 (Some (mkLRCM (initial_frames demo_rng))))
          [] [] demo_rng [EvQueueWorker 0].

End PathBuild.

(** ** The embedding C ABI (lokinet_shared.cpp) *)
Module LokinetShared.

(** [errno] values (Linux). *)
Definition EBADF : Z := 9.
Definition EINVAL : Z := 22.
Definition ENOTSUP : Z := 95.
Definition ETIMEDOUT : Z := 110.
Definition EHOSTDOWN : Z := 112.
Definition ECANCELED : Z := 125.

(** [struct lokinet_stream_result] of lokinet.h; [local_address] is a
    [char] array. *)
Record lokinet_stream_result := mkResult {
  error : Z;
  local_address : list ascii;
  local_port : Z;
  stream_id : Z
}.

(** *** The router behind a context.  [llarp::Context], its router, the
    endpoints of the hidden service context and their QUIC tunnels are
    collaborators: the model keeps what the C ABI reads of them. *)
Record endpoint := mkEndpoint {
  identity_addr : string;   (* GetIdentity().pub.Addr().ToString() *)
  has_quic : bool           (* GetQUICTunnel() != nullptr *)
}.

Record llarp_Context := mkImpl {
  up : bool;                               (* IsUp() *)
  stopping : bool;                         (* IsStopping() *)
  router : option (gmap string endpoint)   (* router, nullptr until set up *)
}.

Record lokinet_context := mkContext {
  impl : llarp_Context;
  runner : bool;               (* the runner thread exists *)
  streams : gmap Z bool        (* std::unordered_map<int, bool> *)
}.

(** [lokinet_context()] *)
Definition lokinet_context_ctor : lokinet_context :=
  mkContext (mkImpl false false None) false ∅.

(** [inbound_stream(id)] and [outbound_stream(id)] *)
Definition inbound_stream (id : Z) (c : lokinet_context) : lokinet_context :=
  mkContext (impl c) (runner c) (<[id := true]> (streams c)).

Definition outbound_stream (id : Z) (c : lokinet_context)
    : lokinet_context :=
  mkContext (impl c) (runner c) (<[id := false]> (streams c)).

(** *** Calls marshalled to the logic thread with [CallSafe] *)
Inductive logic_call :=
| OutboundCall (ctx : positive) (remotehost : string) (remoteport : Z)
               (endpoint_name : string) (localAddr : string)
| ListenCall (ctx : positive)
| CloseCall (ctx : positive) (stream_id : Z) (inbound : bool).

(** The process: live contexts by address, the global [g_context], the
    calls handed to the logic thread and not run yet. *)
Record world := mkWorld {
  heap : gmap positive lokinet_context;
  g_context : option positive;
  logic_queue : list logic_call
}.

(** A [struct lokinet_context*]: [None] is [nullptr]. *)
Definition pointer := option positive.

Inductive outcome (A : Type) :=
| Ret (a : A) (w : world)   (* the function returned [a] *)
| Fault                     (* a null or dangling pointer was dereferenced *)
| Terminate                 (* an exception left the function *)
| Blocks.                   (* the function never returns *)
Arguments Ret {A} a w.
Arguments Fault {A}.
Arguments Terminate {A}.
Arguments Blocks {A}.

(** [ctx->...] *)
Definition deref (w : world) (p : pointer) : option lokinet_context :=
  p ≫= λ a, heap w !! a.

Definition store (a : positive) (c : lokinet_context) (w : world) : world :=
  mkWorld (<[a := c]> (heap w)) (g_context w) (logic_queue w).

Definition CallSafe (call : logic_call) (w : world) : world :=
  mkWorld (heap w) (g_context w) (logic_queue w ++ [call]).

(** *** What the collaborators answer *)
Inductive open_result :=
| Opened (addr : string) (id : Z)   (* quic->open returned {addr, id} *)
| OpenThrows                        (* it threw a std::exception *)
| OpenThrowsInt (err : Z).          (* it threw an int *)

Inductive start_result := ComesUp | Stops | Hangs.

Record environment := mkEnv {
  getservbyname : string → string → option Z;   (* s_port of the entry *)
  stoi : string → option Z;            (* None: std::stoi throws *)
  SockAddr_parse : string → option string;   (* None: the constructor throws *)
  quic_open : string → Z → string → open_result;
  quic_listen : Z;                     (* the id quic->listen returns *)
  startup : start_result;              (* what the runner thread achieves *)
  configured : gmap string endpoint;   (* the endpoints of a router set up *)
  sizeof_local_address : nat;
    (* sizeof(result->local_address), from lokinet.h *)
  logic_delay : option Z
    (* milliseconds until the logic thread has run a call handed to it;
       None: it never runs it *)
}.

(** *** The helpers of the anonymous namespace *)

Definition stream_error (result : lokinet_stream_result) (err : Z)
    : lokinet_stream_result :=
  mkResult err (local_address result) (local_port result)
           (stream_id result).

(** [std::copy_n(src, n, dst)] *)
Definition copy_n (src : list ascii) (n : nat) (dst : list ascii)
    : list ascii :=
  take n src ++ drop n dst.

Definition stream_okay (sizeof_local_address : nat)
    (result : lokinet_stream_result) (host : string) (port : Z) (id : Z)
    : lokinet_stream_result :=
  let result := stream_error result 0 in
  mkResult (error result)
    (copy_n (list_ascii_of_string host)
            (Nat.min (String.length host) (sizeof_local_address - 1))
            (local_address result))
    port id.

Inductive split_result :=
| SplitOk (host : string) (port : Z)
| SplitThrowsInt (err : Z)     (* throw EINVAL *)
| SplitThrows.                 (* std::stoi threw *)

Definition split_host_port (env : environment) (data : string)
    (proto : string) : split_result :=
  match String.index 0 ":" data with
  | Some pos =>
      let host := String.substring 0 pos data in
      let portStr :=
        String.substring (pos + 1) (String.length data - (pos + 1)) data in
      match getservbyname env portStr proto with
      | Some s_port => SplitOk host s_port
      | None =>
          match stoi env portStr with
          | Some port => SplitOk host port
          | None => SplitThrows
          end
      end
  | None => SplitThrowsInt EINVAL
  end.

(** [accept_port]: [ptr] points to the port stored by
    [lokinet_inbound_stream]; the callee reads its 16 low bits. *)
Definition accept_port (port : Z) (stored : Z) : Z :=
  if port =? stored `mod` 65536 then 0 else -1.

(** *** The calls as the logic thread runs them *)

(** The lambda [call] of [lokinet_outbound_stream]. *)
Definition run_outbound_call (env : environment) (a : positive)
    (remotehost : string) (remoteport : Z) (endpoint_name : string)
    (localAddr : string) (result : lokinet_stream_result) (w : world)
    : outcome lokinet_stream_result :=
  match heap w !! a with
  | None => Fault
  | Some c =>
    match router (impl c) with
    | None => Fault
    | Some r =>
      match r !! endpoint_name with
      | None => Ret (stream_error result ENOTSUP) w
      | Some ep =>
        if negb (has_quic ep) then Ret (stream_error result ENOTSUP) w
        else
          match quic_open env remotehost remoteport localAddr with
          | Opened addr id =>
              match split_host_port env addr "tcp" with
              | SplitOk host port =>
                  Ret (stream_okay (sizeof_local_address env) result host port id)
                      (store a (outbound_stream id c) w)
              | SplitThrowsInt err => Ret (stream_error result err) w
              | SplitThrows => Ret (stream_error result ECANCELED) w
              end
          | OpenThrows => Ret (stream_error result ECANCELED) w
          | OpenThrowsInt err => Ret (stream_error result err) w
          end
      end
    end
  end.

(** The lambdas of [lokinet_inbound_stream_filter] and
    [lokinet_close_stream]: both use the endpoint and its tunnel without
    a null check. *)
Definition run_listen_call (env : environment) (a : positive) (w : world)
    : outcome Z :=
  match heap w !! a with
  | None => Fault
  | Some c =>
    match router (impl c) with
    | None => Fault
    | Some r =>
      match r !! "default"%string with
      | None => Fault
      | Some ep => if has_quic ep then Ret (quic_listen env) w else Fault
      end
    end
  end.

Definition run_close_call (a : positive) (w : world) : outcome unit :=
  match heap w !! a with
  | None => Fault
  | Some c =>
    match router (impl c) with
    | None => Fault
    | Some r =>
      match r !! "default"%string with
      | None => Fault
      | Some ep => if has_quic ep then Ret tt w else Fault
      end
    end
  end.

(** The call handed over last has been run: it leaves the queue. *)
Definition call_done (w : world) : world :=
  mkWorld (heap w) (g_context w) (removelast (logic_queue w)).

(** *** The exported functions *)

(** What [lokinet_outbound_stream] leaves behind: the result structure
    and the time spent in [future.wait_for], in milliseconds. *)
Record outbound_return := mkOutbound {
  out_result : lokinet_stream_result;
  waited_ms : Z
}.

Definition wait_limit_ms : Z := 10 * 1000.   (* std::chrono::seconds{10} *)

(** [struct lokinet_context* lokinet_default()] *)
Definition lokinet_default (w : world) : outcome pointer :=
  match g_context w with
  | Some a => Ret (Some a) w
  | None =>
      let a := fresh (dom (heap w)) in
      Ret (Some a)
          (mkWorld (<[a := lokinet_context_ctor]> (heap w)) (Some a)
                   (logic_queue w))
  end.

(** [struct lokinet_context* lokinet_context_new()] *)
Definition lokinet_context_new (w : world) : outcome pointer :=
  let a := fresh (dom (heap w)) in
  Ret (Some a)
      (mkWorld (<[a := lokinet_context_ctor]> (heap w)) (g_context w)
               (logic_queue w)).

(** [char* lokinet_address(struct lokinet_context* ctx)] *)
Definition lokinet_address (ctx : pointer) (w : world)
    : outcome (option string) :=
  match ctx with
  | None => Ret None w
  | Some _ =>
    match deref w ctx with
    | None => Fault
    | Some c =>
      match router (impl c) with
      | None => Fault
      | Some r =>
        match r !! "default"%string with
        | None => Fault
        | Some ep => Ret (Some (identity_addr ep)) w
        end
      end
    end
  end.

(** [void lokinet_context_start(struct lokinet_context* ctx)] *)
Definition lokinet_context_start (env : environment) (ctx : pointer)
    (w : world) : outcome unit :=
  match ctx with
  | None => Ret tt w
  | Some a =>
    match deref w ctx with
    | None => Fault
    | Some c =>
      match startup env with
      | ComesUp =>
          Ret tt (store a (mkContext
                             (mkImpl true false (Some (configured env)))
                             true (streams c)) w)
      | Stops =>
          Ret tt (store a (mkContext
                             (mkImpl false true (router (impl c)))
                             true (streams c)) w)
      | Hangs => Blocks
      end
    end
  end.

(** [void lokinet_context_stop(struct lokinet_context* ctx)] *)
Definition lokinet_context_stop (ctx : pointer) (w : world)
    : outcome unit :=
  match ctx with
  | None => Ret tt w
  | Some a =>
    match deref w ctx with
    | None => Fault
    | Some c =>
      let i := if negb (stopping (impl c))
               then mkImpl false true (router (impl c))   (* CloseAsync, Wait *)
               else impl c in
      Ret tt (store a (mkContext i false (streams c)) w)
    end
  end.

(** [void lokinet_context_free(struct lokinet_context* ctx)] *)
Definition lokinet_context_free (ctx : pointer) (w : world)
    : outcome unit :=
  match lokinet_context_stop ctx w with
  | Ret _ w' =>
      match ctx with
      | None => Ret tt w'                       (* delete nullptr *)
      | Some a =>
          Ret tt (mkWorld (delete a (heap w')) (g_context w')
                          (logic_queue w'))
      end
  | Fault => Fault
  | Terminate => Terminate
  | Blocks => Blocks
  end.

(** [void lokinet_outbound_stream(struct lokinet_stream_result* result,
      const char* remote, const char* local, struct lokinet_context* ctx)] *)
Definition lokinet_outbound_stream (env : environment)
    (result : lokinet_stream_result) (remote : string)
    (local : option string) (ctx : pointer) (w : world)
    : outcome outbound_return :=
  match ctx with
  | None => Ret (mkOutbound (stream_error result EHOSTDOWN) 0) w
  | Some a =>
    match deref w ctx with
    | None => Fault
    | Some c =>
      if negb (up (impl c)) then
        Ret (mkOutbound (stream_error result EHOSTDOWN) 0) w
      else
      match split_host_port env remote "tcp" with
      | SplitThrowsInt err => Ret (mkOutbound (stream_error result err) 0) w
      | SplitThrows => Terminate
      | SplitOk remotehost remoteport =>
        match SockAddr_parse env (default "127.0.0.1:0"%string local) with
        | None => Ret (mkOutbound (stream_error result EINVAL) 0) w
        | Some localAddr =>
          let w1 := CallSafe (OutboundCall a remotehost remoteport
                                           "default" localAddr) w in
          (* future.wait_for(std::chrono::seconds{10}); neither it nor
             future.get() throws on the future of a live promise, so the
             handler that sets EBADF is never entered *)
          match logic_delay env with
          | Some d =>
              if d <=? wait_limit_ms then
                (* ready: the call has run *)
                match run_outbound_call env a remotehost remoteport
                        "default" localAddr result (call_done w1) with
                | Ret result' w2 => Ret (mkOutbound result' d) w2
                | Fault => Fault
                | Terminate => Terminate
                | Blocks => Blocks
                end
              else
                Ret (mkOutbound (stream_error result ETIMEDOUT)
                                wait_limit_ms) w1
          | None =>
              Ret (mkOutbound (stream_error result ETIMEDOUT)
                              wait_limit_ms) w1
          end
        end
      end
    end
  end.

(** [int lokinet_inbound_stream_filter(lokinet_stream_filter acceptFilter,
      void* user, struct lokinet_context* ctx)].  The filter is only
    called by the tunnel, when a stream comes in. *)
Definition lokinet_inbound_stream_filter (env : environment)
    (acceptFilter : option (Z → Z → Z)) (user : Z) (ctx : pointer)
    (w : world) : outcome Z :=
  let acceptFilter := default (λ _ _, 0) acceptFilter in
  match ctx with
  | None => Ret (-1) w
  | Some a =>
    match deref w ctx with
    | None => Fault
    | Some c =>
      if negb (up (impl c)) then Ret (-1) w
      else
        let w1 := CallSafe (ListenCall a) w in
        (* ftr.get() waits without a limit *)
        match logic_delay env with
        | None => Blocks
        | Some _ =>
            match run_listen_call env a (call_done w1) with
            | Ret id w2 =>
                match heap w2 !! a with
                | None => Fault
                | Some c2 => Ret id (store a (inbound_stream id c2) w2)
                end
            | Fault => Fault
            | Terminate => Terminate
            | Blocks => Blocks
            end
        end
    end
  end.

(** [int lokinet_inbound_stream(uint16_t port, struct lokinet_context* ctx)] *)
Definition lokinet_inbound_stream (env : environment) (port : Z)
    (ctx : pointer) (w : world) : outcome Z :=
  lokinet_inbound_stream_filter env (Some accept_port) port ctx w.

(** [void lokinet_close_stream(int stream_id, struct lokinet_context* ctx)] *)
Definition lokinet_close_stream (env : environment) (id : Z)
    (ctx : pointer) (w : world) : outcome unit :=
  match ctx with
  | None => Ret tt w
  | Some a =>
    match deref w ctx with
    | None => Fault
    | Some c =>
      if negb (up (impl c)) then Ret tt w
      else
        match streams c !! id with
        | None => Ret tt w          (* streams.at throws, caught *)
        | Some inbound =>
            let w1 := CallSafe (CloseCall a id inbound) w in
            match logic_delay env with
            | None => Blocks
            | Some _ => run_close_call a (call_done w1)
            end
        end
    end
  end.

(** *** Properties of the calls, as predicates *)


(** *** Small instances used to run the model *)

Definition demo_endpoint : endpoint := mkEndpoint "demo.loki" true.

Definition demo_context : lokinet_context :=
  mkContext (mkImpl true false (Some {["default"%string := demo_endpoint]}))
            true ∅.

Definition demo_world : world := mkWorld {[1%positive := demo_context]} None [].

Definition demo_result : lokinet_stream_result :=
  mkResult 0 (replicate 256 zero) 0 0.

(** An environment whose logic thread takes [d] to run a call. *)
Definition demo_env (d : option Z) : environment :=
  mkEnv (λ _ _, None) (λ _, Some 443) (λ s, Some s)
        (λ _ _ _, Opened "127.0.0.1:5000" 1) 2 ComesUp
        {["default"%string := demo_endpoint]} 256 d.

End LokinetShared.

(** ** Further definitions for the transit-side records *)
Module TransitAux.
Import Buffers Transit.

Global Instance byte_t_eq_dec : EqDecision byte_t := Byte.byte_eq_dec.

(** The same transit hop seen from the other side: [upstream] and
    [downstream] exchanged. *)
Definition reversed (a : TransitHopInfo) : TransitHopInfo :=
  mkTransitHopInfo (pathID a) (downstream a) (upstream a).

(** Two buffers hold the same first [sizeof(size_t)] bytes. *)
Definition same_prefix (x y : list byte_t) : Prop :=
  take sizeof_size_t x = take sizeof_size_t y.

Definition demo_info (p u d : byte_t) : TransitHopInfo :=
  mkTransitHopInfo (replicate PATHIDSIZE p) (replicate PUBKEYSIZE u)
                   (replicate PUBKEYSIZE d).

Definition demo_local : list byte_t := replicate sizeof_size_t xff.
End TransitAux.

(** ** Further definitions for the path build pipeline *)
Module PathBuildAux.
Import Buffers PathBuild.

(** What the job of a hop leaves in the hop [h], which was [h0]: the
    router and the sizes of the buffers are kept, the key is one the key
    generation gave, and the shared secret is what the key exchange gave
    for the encryption key of the router, the key and the nonce that the
    hop now holds. *)
Definition hop_done (c : llarp_crypto) (h0 h : PathHopConfig) : Prop :=
  router h = router h0
  ∧ length (nonce h) = length (nonce h0)
  ∧ length (pathID h) = length (pathID h0)
  ∧ (∃ r, commkey h = (encryption_keygen c r).1)
  ∧ (∃ s0, dh_client c s0 (enckey (router h)) (commkey h) (nonce h)
           = (true, shared h)).

(** What the job of a hop leaves in its frame [f], which was [f0]: the
    commit record encoded into [f0] after the overhead, then encrypted in
    place with the key of the hop for the encryption key of its router. *)
Definition frame_done (codec : frame_codec) (c : llarp_crypto)
    (f0 f : list byte_t) (h : PathHopConfig) : Prop :=
  ∃ encoded r r',
    BEncode_record codec f0 (OverheadSize codec) = (true, encoded)
    ∧ EncryptInPlace codec encoded (commkey h) (enckey (router h)) c r
      = (true, f, r').

(** The hops and frames between two jobs of the build of [p] started with
    the generator [r], [k] hops done: the hops below [k] and their frames
    are done, the other hops are as they were given. *)
Definition progress (codec : frame_codec) (c : llarp_crypto) (r : rng)
    (p : Path) (k : nat) (w : world) : Prop :=
  ∀ i h0, hops p !! i = Some h0 →
    ∃ h, hops_of w !! i = Some h
       ∧ if bool_decide (i < k)%nat
         then hop_done c h0 h
              ∧ ∃ f, frames_of w !! i = Some f
                   ∧ frame_done codec c (random_frame r i) f h
         else h = h0.

(** The context between two jobs of the build of a path that may be
    longer than the commit message has frames. *)
Definition long_inv (p : Path) (func : nat) (k : nat) (w : world) : Prop :=
  (∃ hs, path (ctx w) = Some (set_hops hs p)
         ∧ length hs = length (hops p))
  ∧ (∃ fs, LRCM (ctx w) = Some (mkLRCM fs) ∧ length fs = MAXHOPS)
  ∧ idx (ctx w) = k
  ∧ result (ctx w) = Some func
  ∧ worker_queue w = [JobGenerateNextKey]
  ∧ logic_queue w = [].

Definition demo_long_path : Path :=
  mkPath (replicate 9 (demo_hop x0a)) 0 ePathBuilding.

(** The number of jobs queued on the two executors. *)
Definition jobs_queued (w : world) : nat :=
  length (worker_queue w) + length (logic_queue w).

(** How the build of a path with more than MAXHOPS hops ends when it is
    given time for more than MAXHOPS jobs: it is aborted in the job of a
    hop [k <= MAXHOPS] in which a step failed, the jobs of the hops before
    it having run without failure; or the jobs of the hops 0, ...,
    MAXHOPS-1 ran without failure and the job of hop MAXHOPS, whose hop
    exists and whose key exchange succeeds, takes [frames[MAXHOPS]] of a
    message of MAXHOPS frames. *)
Definition long_build_end (codec : frame_codec) (c : llarp_crypto) (r : rng)
    (p : Path) (func : nat) (res : run_result) : Prop :=
  match res with
  | Crashed w' =>
      ∃ k f, (k ≤ MAXHOPS)%nat
           ∧ (∀ j, (j < k)%nat → hop_ok codec c r p func j)
           ∧ hop_crash codec c r p func k f w'
  | Faulted =>
      (∀ j, (j < MAXHOPS)%nat → hop_ok codec c r p func j)
      ∧ ∃ w, hop_turn codec c r p func MAXHOPS w
           ∧ is_Some (hops_of w !! MAXHOPS)
           ∧ length (frames_of w) = MAXHOPS
           ∧ failing_step codec w = None
           ∧ GenerateNextKey codec w = Undefined
  | Idle _ | Pending _ => False
  end.
End PathBuildAux.

(** ** Further definitions for the embedding C ABI *)
Module LokinetSharedAux.
Import LokinetShared.

(** The string holds a colon. *)
Fixpoint has_colon (s : string) : bool :=
  match s with
  | EmptyString => false
  | String c s' => if Ascii.eqb c ":" then true else has_colon s'
  end.

(** [host:port] *)
Definition host_port (host port : string) : string :=
  String.append host (String ":" port).

(** What the handler given to [quic->listen] answers for a stream that
    comes in on [port]: a local address to forward it to, an exception, or
    no address. *)
Inductive accept_result :=
| AcceptLocal (port : Z)    (* SockAddr{"127.0.0.1:" + to_string(port)} *)
| RejectThrows              (* throw std::invalid_argument{"rejected"} *)
| Decline.                  (* std::nullopt *)

(** The lambda that [lokinet_inbound_stream_filter] gives to
    [quic->listen], for the filter it was called with. *)
Definition listen_handler (acceptFilter : option (Z → Z → Z)) (user : Z)
    (port : Z) : accept_result :=
  let acceptFilter := default (λ _ _, 0) acceptFilter in
  let result := acceptFilter port user in
  if negb (result =? 0) then
    if result =? -1 then RejectThrows else Decline
  else AcceptLocal port.

(** The handler that [lokinet_inbound_stream] installs for [port]. *)
Definition inbound_stream_handler (port : Z) : Z → accept_result :=
  listen_handler (Some accept_port) port.

(** The stream ids a context knows. *)
Definition streams_of (w : world) (a : positive) : gmap Z bool :=
  from_option streams ∅ (heap w !! a).

(** A context that is up, with the default endpoint and its tunnel. *)
Definition serving (c : lokinet_context) : Prop :=
  up (impl c) = true
  ∧ ∃ r ep, router (impl c) = Some r ∧ r !! "default"%string = Some ep
            ∧ has_quic ep = true.
End LokinetSharedAux.

(** * Properties *)

(** ** Transit-side records *)
Module TransitProps.
Import Buffers Transit.

Lemma byte_val_range b : 0 ≤ byte_val b < 256.
Proof.
  unfold byte_val. pose proof (Byte.to_N_bounded b). lia.
Qed.

Lemma size_t_of_bytes_range bs :
  0 ≤ size_t_of_bytes bs < 256 ^ Z.of_nat (length bs).
Proof.
  induction bs as [|b bs IH].
  - simpl. lia.
  - cbn [size_t_of_bytes length]. rewrite Nat2Z.inj_succ, Z.pow_succ_r by lia.
    pose proof (byte_val_range b). lia.
Qed.

Lemma memcpy_size_t u src :
  length u = sizeof_size_t →
  memcpy u src sizeof_size_t = take sizeof_size_t src.
Proof.
  intros Hu. unfold memcpy. rewrite drop_ge by lia. apply app_nil_r.
Qed.

Lemma size_t_value_range bs :
  0 ≤ size_t_of_bytes (take sizeof_size_t bs) ≤ SIZE_MAX.
Proof.
  pose proof (size_t_of_bytes_range (take sizeof_size_t bs)) as H.
  rewrite length_take in H.
  assert (256 ^ Z.of_nat (sizeof_size_t `min` length bs) ≤ 256 ^ 8)
    by (apply Z.pow_le_mono_r; unfold sizeof_size_t; lia).
  unfold SIZE_MAX. change (256 ^ 8) with (2 ^ 64) in *. lia.
Qed.

Lemma lxor_size_t a b :
  0 ≤ a ≤ SIZE_MAX → 0 ≤ b ≤ SIZE_MAX → 0 ≤ Z.lxor a b ≤ SIZE_MAX.
Proof.
  unfold SIZE_MAX. intros Ha Hb.
  assert (0 ≤ Z.lxor a b) as Hnn by (apply Z.lxor_nonneg; lia).
  split; [done|].
  destruct (decide (Z.lxor a b = 0)) as [->|Hne]; [lia|].
  assert (Z.lxor a b < 2 ^ 64); [|lia].
  apply Z.log2_lt_pow2; [lia|].
  pose proof (Z.log2_lxor a b ltac:(lia) ltac:(lia)) as Hlog.
  assert (∀ x, 0 ≤ x ≤ 2 ^ 64 - 1 → Z.log2 x < 64) as Hx.
  { intros x Hx. destruct (decide (x = 0)) as [->|]; [done|].
    apply Z.log2_lt_pow2; lia. }
  pose proof (Hx a Ha). pose proof (Hx b Hb). lia.
Qed.

(** C8.  The hash of a [TransitHopInfo] is the exclusive or of three
    [size_t] values: those held by the first [sizeof(size_t)] bytes of
    [upstream], of [downstream] and of [pathID].  It does not depend on
    what the three locals held before the copies, and it is a [size_t]. *)
Theorem Hash_xor_C8 u0 u1 u2 a :
  length u0 = sizeof_size_t → length u1 = sizeof_size_t →
  length u2 = sizeof_size_t →
  Hash u0 u1 u2 a =
    Z.lxor (Z.lxor (size_t_of_bytes (take sizeof_size_t (upstream a)))
                   (size_t_of_bytes (take sizeof_size_t (downstream a))))
           (size_t_of_bytes (take sizeof_size_t (pathID a)))
  ∧ 0 ≤ Hash u0 u1 u2 a ≤ SIZE_MAX.
Proof.
  intros H0 H1 H2. unfold Hash. rewrite !memcpy_size_t by done.
  split; [done|].
  auto using lxor_size_t, size_t_value_range.
Qed.

Lemma Hash_xor_C8_witness :
  let a := mkTransitHopInfo
             (replicate PATHIDSIZE x03) (replicate PUBKEYSIZE x05)
             (replicate PUBKEYSIZE x09) in
  let u := replicate sizeof_size_t xff in
  length u = sizeof_size_t
  ∧ Hash u u u a = 0x0f0f0f0f0f0f0f0f
  ∧ Hash u u u a =
      Z.lxor (Z.lxor (size_t_of_bytes (take sizeof_size_t (upstream a)))
                     (size_t_of_bytes (take sizeof_size_t (downstream a))))
             (size_t_of_bytes (take sizeof_size_t (pathID a)))
  ∧ 0 ≤ Hash u u u a ≤ SIZE_MAX.
Proof.
  intros a u. split; [reflexivity|]. split; [vm_compute; reflexivity|].
  apply (Hash_xor_C8 u u u a); reflexivity.
Defined.

(** C4.  A default-constructed [TransitHop] has a lifetime of 360000
    milliseconds, six minutes: not the ten minutes (600000 ms) its comment
    and the specification give. *)
Theorem TransitHop_default_lifetime_C4 i k s v :
  lifetime (TransitHop_default i k s v) = 360000
  ∧ lifetime (TransitHop_default i k s v) = 6 * 60 * 1000
  ∧ lifetime (TransitHop_default i k s v) ≠ DEFAULT_PATH_LIFETIME_MS
  ∧ DEFAULT_PATH_LIFETIME_MS = ten_minutes_ms.
Proof. repeat split; done. Qed.

(** Whatever the order of the buffers is: as soon as one path id is below
    another and one router id is below another, there are two values each
    of which is below the other. *)
Lemma info_ltb_both_ways (PathID_lt RouterID_lt
    : list byte_t → list byte_t → bool) x y u v d :
  PathID_lt x y = true → RouterID_lt u v = true →
  info_ltb PathID_lt RouterID_lt
           (mkTransitHopInfo x v d) (mkTransitHopInfo y u d) = true
  ∧ info_ltb PathID_lt RouterID_lt
             (mkTransitHopInfo y u d) (mkTransitHopInfo x v d) = true.
Proof.
  intros Hp Hr. unfold info_ltb. simpl. rewrite Hp, Hr.
  split; [done|]. by rewrite orb_true_r.
Qed.

(** C9.  [operator<] of [TransitHopInfo] is not asymmetric: of two
    well-formed values that differ in opposite directions on [pathID] and
    on [upstream], each is less than the other. *)
Theorem info_ltb_not_asymmetric_C9 :
  let a := mkTransitHopInfo (zero_buffer PATHIDSIZE)
                            (replicate PUBKEYSIZE x01)
                            (zero_buffer PUBKEYSIZE) in
  let b := mkTransitHopInfo (replicate PATHIDSIZE x01)
                            (zero_buffer PUBKEYSIZE)
                            (zero_buffer PUBKEYSIZE) in
  wf_info a ∧ wf_info b
  ∧ info_ltb_memcmp a b = true ∧ info_ltb_memcmp b a = true
  ∧ ¬ asymmetric info_ltb_memcmp.
Proof.
  intros a b.
  assert (info_ltb_memcmp a b = true ∧ info_ltb_memcmp b a = true)
    as [Hab Hba] by (apply info_ltb_both_ways; vm_compute; reflexivity).
  repeat split; try done.
  intros Hasym. specialize (Hasym a b Hab). congruence.
Qed.
End TransitProps.

(** ** The path build pipeline *)
Module PathBuildProps.
Import Buffers PathBuild.
Local Open Scope nat_scope.

Lemma trace_upto_S n k :
  trace_upto n (S k) = trace_upto n k ++ hop_events n k.
Proof.
  unfold trace_upto. rewrite seq_S, flat_map_app.
  change (flat_map (hop_events n) [0 + k]) with (hop_events n k ++ []).
  by rewrite app_nil_r.
Qed.

Lemma router_set_commkey v h : router (set_commkey v h) = router h.
Proof. done. Qed.

Lemma lookup_same_routers (hs hs0 : list PathHopConfig) j h :
  map router hs = map router hs0 → hs !! j = Some h →
  ∃ h0, hs0 !! j = Some h0 ∧ router h0 = router h.
Proof.
  intros Hmap Hj.
  assert (map router hs !! j = Some (router h)) as Hr
    by (by rewrite list_lookup_fmap, Hj).
  rewrite Hmap, list_lookup_fmap in Hr.
  destruct (hs0 !! j) as [h0|] eqn:E; simplify_eq/=. eauto.
Qed.

Lemma insert_same_router (hs : list PathHopConfig) k h h' :
  hs !! k = Some h → router h' = router h →
  map router (<[k := h']> hs) = map router hs.
Proof.
  intros Hk Hr. change (map router) with (fmap (M:=list) router).
  rewrite list_fmap_insert, Hr. apply list_insert_id.
  by rewrite list_lookup_fmap, Hk.
Qed.

Section Steps.
Context (codec : frame_codec) (c : llarp_crypto) (p0 : Path) (func : nat)
        (m0 : list (list byte_t)).
Hypothesis Hmax : length (hops p0) ≤ MAXHOPS.

Lemma hops_inv_step k hs hop hop' :
  hops_inv p0 k hs → hs !! k = Some hop →
  router hop' = router hop →
  upstream hop' = match hs !! S k with
                  | Some next => pubkey (router next)
                  | None => pubkey (router hop)
                  end →
  hops_inv p0 (S k) (<[k := hop']> hs).
Proof.
  intros (Hlen & Hrouters & Hup) Hhop Hr Hu. split; [|split].
  - by rewrite length_insert.
  - by rewrite (insert_same_router hs k hop hop').
  - intros j h Hj Hjh. destruct (decide (j = k)) as [->|Hne].
    + rewrite list_lookup_insert_eq in Hjh
        by (by apply lookup_lt_Some in Hhop).
      simplify_eq. rewrite Hu, Hr.
      destruct (hs !! S k) as [next|] eqn:Enext.
      * destruct (lookup_same_routers _ _ _ _ Hrouters Enext)
          as (h0 & -> & ->). done.
      * apply lookup_ge_None in Enext.
        rewrite (proj2 (lookup_ge_None (hops p0) (S k))) by lia. done.
    + rewrite list_lookup_insert_ne in Hjh by done.
      apply Hup; [lia|done].
Qed.

Lemma frames_inv_step k fs f :
  frames_inv m0 k fs → frames_inv m0 (S k) (<[k := f]> fs).
Proof.
  intros [Hlen Hfs]. split; [by rewrite length_insert|].
  intros j Hj. rewrite list_lookup_insert_ne by lia. apply Hfs. lia.
Qed.

Lemma frames_inv_weaken k k' fs :
  k ≤ k' → frames_inv m0 k fs → frames_inv m0 k' fs.
Proof. intros Hk [Hlen Hfs]. split; [done|]. intros j Hj. apply Hfs. lia. Qed.

Lemma GenerateNextKey_inv k w :
  data_inv c p0 func m0 k w → k < length (hops p0) →
  worker_queue w = [] → logic_queue w = [] →
  match GenerateNextKey codec w with
  | Returned w' => build_inv c p0 func m0 (S k) w'
  | Aborted w' => aborted_inv p0 m0 k w'
  | Undefined => False
  end.
Proof.
  intros (Hp & Hm & Hres & Hc & Hidx & Htr) Hk Hwq Hlq.
  destruct Hp as (hs & Hp & Hhs).
  destruct Hm as (fs & Hm & Hfs).
  pose proof Hhs as (Hlen & _ & _). pose proof Hfs as (Hflen & _).
  unfold GenerateNextKey. rewrite Hp, Hm, Hidx. simpl.
  destruct (lookup_lt_is_Some_2 hs k) as [hop Hhop]; [lia|].
  destruct (lookup_lt_is_Some_2 fs k) as [frame Hframe]; [lia|].
  rewrite Hhop, Hframe.
  destruct (encryption_keygen _ _) as [key r1].
  destruct (dh_client _ _ _ _ _) as [ok1 s]. simpl.
  destruct ok1; simpl.
  2:{ (* the key exchange failed *)
    split; [|split; [done|split; [done|]]].
    - eexists. split; [done|].
      apply (frames_inv_weaken k); [lia|done].
    - exists 3, "Failed to generate shared key for path build"%string.
      split; [lia|]. rewrite Htr, <- app_assoc. done. }
  match goal with |- context [<[k := ?h]> hs] => set (hop' := h) end.
  assert (router hop' = router hop) as Hr
    by (subst hop'; by destruct (hs !! S k)).
  assert (upstream hop' = match hs !! S k with
                          | Some next => pubkey (router next)
                          | None => pubkey (router hop)
                          end) as Hu
    by (subst hop'; by destruct (hs !! S k)).
  clearbody hop'.
  destruct (BEncode_record _ _ _) as [ok2 frame2]. simpl.
  destruct ok2; simpl.
  2:{ (* the record did not encode *)
    split; [|split; [done|split; [done|]]].
    - eexists. split; [done|]. by apply frames_inv_step.
    - exists 6, "Failed to generate Commit Record"%string.
      split; [lia|]. rewrite Htr, <- !app_assoc. done. }
  destruct (EncryptInPlace _ _ _ _ _ _) as [[ok3 frame3] r4]. simpl.
  destruct ok3; simpl.
  2:{ (* the frame did not encrypt *)
    split; [|split; [done|split; [done|]]].
    - eexists. split; [done|]. by apply frames_inv_step.
    - exists 7, "Failed to encrypt LRCR"%string.
      split; [lia|]. rewrite Htr, <- !app_assoc. done. }
  rewrite length_insert, Hlen.
  assert (∀ q, trace w ++ [EvKeygen k; EvRandomizeNonce k; EvDhClient k;
                EvRandomizePathID k; EvSetUpstream k; EvBEncode k;
                EvEncryptInPlace k; q] = trace_upto (length (hops p0)) k ++
                [EvKeygen k; EvRandomizeNonce k; EvDhClient k;
                EvRandomizePathID k; EvSetUpstream k; EvBEncode k;
                EvEncryptInPlace k; q]) as Htr' by (by rewrite Htr).
  case_bool_decide as Hnext; simpl.
  - repeat split; simpl; try done.
    + eexists. split; [done|]. by apply (hops_inv_step k hs hop hop').
    + eexists. split; [done|]. by apply frames_inv_step.
    + rewrite trace_upto_S. unfold hop_events.
      rewrite bool_decide_eq_true_2 by done.
      rewrite <- !app_assoc. apply Htr'.
    + by rewrite Hwq, bool_decide_eq_true_2.
    + by rewrite Hlq, bool_decide_eq_true_2.
  - repeat split; simpl; try done.
    + eexists. split; [done|]. by apply (hops_inv_step k hs hop hop').
    + eexists. split; [done|]. by apply frames_inv_step.
    + rewrite trace_upto_S. unfold hop_events.
      rewrite bool_decide_eq_false_2 by done.
      rewrite <- !app_assoc. apply Htr'.
    + by rewrite Hwq, bool_decide_eq_false_2.
    + by rewrite Hlq, bool_decide_eq_false_2.
Qed.

Lemma HandleDone_inv w :
  data_inv c p0 func m0 (length (hops p0)) w →
  worker_queue w = [] → logic_queue w = [] →
  ∃ w', HandleDone w = Returned w' ∧ done_inv p0 m0 w'.
Proof.
  intros (Hp & Hm & Hres & Hc & Hidx & Htr) Hwq Hlq.
  unfold HandleDone. rewrite Hres. eexists. split; [done|].
  unfold done_inv, full_trace. simpl. by rewrite Htr.
Qed.

Lemma run_unfold fuel w :
  run codec fuel w =
  match next_job w with
  | None => Idle w
  | Some (j, w') =>
      match fuel with
      | O => Pending w
      | S fuel' =>
          match run_job codec j w' with
          | Returned w'' => run codec fuel' w''
          | Aborted w'' => Crashed w''
          | Undefined => Faulted
          end
      end
  end.
Proof. by destruct fuel. Qed.

Lemma run_idle fuel w :
  worker_queue w = [] → logic_queue w = [] → run codec fuel w = Idle w.
Proof.
  intros Hwq Hlq. rewrite run_unfold. unfold next_job.
  by rewrite Hwq, Hlq.
Qed.

(** Every run from a state between two jobs. *)
Lemma run_inv fuel : ∀ k w,
  build_inv c p0 func m0 k w → k ≤ length (hops p0) →
  match run codec fuel w with
  | Idle w' => done_inv p0 m0 w'
  | Crashed w' =>
      ∃ k', k ≤ k' < length (hops p0) ∧ aborted_inv p0 m0 k' w'
  | Pending w' =>
      k + fuel ≤ length (hops p0)
      ∧ build_inv c p0 func m0 (k + fuel) w'
  | Faulted => False
  end.
Proof.
  induction fuel as [|fuel IH]; intros k w (Hd & Hwq & Hlq) Hk;
    rewrite run_unfold; unfold next_job; rewrite Hwq, Hlq;
    case_bool_decide as Hlt; simpl.
  - rewrite Nat.add_0_r. split; [done|]. split; [done|].
    by rewrite bool_decide_eq_true_2.
  - rewrite Nat.add_0_r. split; [done|]. split; [done|].
    by rewrite bool_decide_eq_false_2.
  - pose proof (GenerateNextKey_inv k
      (mkWorld (ctx w) [] [] (entropy w) (trace w)))
      as Hstep.
    destruct (GenerateNextKey codec _) as [w''|w''|].
    + assert (build_inv c p0 func m0 (S k) w'') as Hinv
        by (by apply Hstep).
      specialize (IH (S k) w'' Hinv ltac:(lia)).
      destruct (run codec fuel w'') as [w3|w3| |w3]; simpl in *;
        [exact IH| |exact IH|].
      * destruct IH as (k' & ? & ?). exists k'. split; [lia|done].
      * replace (k + S fuel) with (S k + fuel) by lia. done.
    + exists k. split; [lia|]. by apply Hstep.
    + by apply Hstep.
  - assert (k = length (hops p0)) as -> by lia.
    destruct (HandleDone_inv
      (mkWorld (ctx w) [] [] (entropy w) (trace w)))
      as (w' & -> & Hdone); [done..|].
    rewrite run_idle; [done|apply Hdone..].
Qed.
End Steps.

(** *** Builds whose steps cannot fail run to completion *)

Lemma next_job_ctx w j w' : next_job w = Some (j, w') → ctx w' = ctx w.
Proof.
  unfold next_job. intros H.
  destruct (worker_queue w), (logic_queue w); by simplify_eq.
Qed.

Lemma GenerateNextKey_crypto codec w w' :
  GenerateNextKey codec w = Returned w' → crypto (ctx w') = crypto (ctx w).
Proof.
  unfold GenerateNextKey. intros H.
  repeat (case_match; simplify_eq; try done).
Qed.

Lemma GenerateNextKey_never_aborts codec w w' :
  never_fails codec (crypto (ctx w)) → GenerateNextKey codec w ≠ Aborted w'.
Proof.
  intros (Hdh & Henc & Hcry). unfold GenerateNextKey.
  destruct (path (ctx w)) as [p|]; [|done].
  destruct (LRCM (ctx w)) as [m|]; [|done].
  destruct (hops p !! idx (ctx w)) as [hop|]; [|done].
  destruct (encryption_keygen _ _) as [key r1]. simpl.
  match goal with |- context [dh_client ?c ?a1 ?a2 ?a3 ?a4] =>
    pose proof (Hdh a1 a2 a3 a4) as H1;
    destruct (dh_client c a1 a2 a3 a4) as [ok1 s] end.
  simpl in H1. subst ok1. simpl.
  destruct (frames m !! idx (ctx w)) as [frame|]; [|done].
  match goal with |- context [BEncode_record codec ?a1 ?a2] =>
    pose proof (Henc a1 a2) as H2;
    destruct (BEncode_record codec a1 a2) as [ok2 frame2] end.
  simpl in H2. subst ok2. simpl.
  match goal with |- context [EncryptInPlace codec ?a1 ?a2 ?a3 ?c ?a4] =>
    pose proof (Hcry a1 a2 a3 a4) as H3;
    destruct (EncryptInPlace codec a1 a2 a3 c a4) as [[ok3 frame3] r4] end.
  simpl in H3. subst ok3. simpl.
  by case_bool_decide.
Qed.

Lemma run_never_crashes codec fuel : ∀ w w',
  never_fails codec (crypto (ctx w)) → run codec fuel w ≠ Crashed w'.
Proof.
  induction fuel as [|fuel IH]; intros w w' Hnf; rewrite run_unfold;
    destruct (next_job w) as [[j w1]|] eqn:Ejob; try done.
  apply next_job_ctx in Ejob.
  destruct j; simpl.
  - destruct (GenerateNextKey codec w1) as [w2|w2|] eqn:Egen; [| |done].
    + apply IH. apply GenerateNextKey_crypto in Egen. by rewrite Egen, Ejob.
    + exfalso. revert Egen. apply GenerateNextKey_never_aborts.
      by rewrite Ejob.
  - unfold HandleDone. destruct (result (ctx w1)); [|done].
    apply IH. simpl. by rewrite Ejob.
Qed.


(** *** [AsyncGenerateKeys] *)

Lemma emplace_random_frames_spec n : ∀ m r,
  emplace_random_frames n m r =
  (mkLRCM (frames m ++ map (random_frame r) (seq 0 n)),
   mkRng (stream r) (pos r + FRAME_SIZE * n)).
Proof.
  induction n as [|n IH]; intros [fs] [st ps].
  - cbn [emplace_random_frames frames stream pos map seq].
    rewrite app_nil_r. do 2 f_equal. lia.
  - cbn [emplace_random_frames]. unfold Randomize, EncryptedFrame_new,
      zero_buffer. rewrite length_replicate. cbn [randombytes stream pos].
    rewrite IH. cbn [frames stream pos]. f_equal.
    + f_equal. rewrite <- app_assoc. f_equal.
      change (seq 0 (S n)) with (0 :: seq 1 n).
      rewrite <- seq_shift, map_cons, map_map. cbn [app]. f_equal.
      * unfold random_frame. cbn [stream pos]. do 2 f_equal. lia.
      * apply map_ext. intros j. unfold random_frame. cbn [stream pos].
        do 2 f_equal. lia.
    + f_equal. lia.
Qed.

Lemma AsyncGenerateKeys_spec p func c r :
  AsyncGenerateKeys p func (initial_world c r) =
  mkWorld (mkCtx (Some p) (Some func) 0 c (Some (mkLRCM (initial_frames r))))
          [JobGenerateNextKey] []
          (mkRng (stream r) (pos r + FRAME_SIZE * MAXHOPS))
          [EvQueueWorker 0].
Proof.
  unfold AsyncGenerateKeys. rewrite emplace_random_frames_spec. done.
Qed.

Lemma build_inv_init c r p func :
  1 ≤ length (hops p) →
  build_inv c p func (initial_frames r) 0
            (AsyncGenerateKeys p func (initial_world c r)).
Proof.
  intros HN. rewrite AsyncGenerateKeys_spec.
  repeat split; simpl; try done.
  - exists (hops p). split; [by destruct p|]. repeat split; try done. lia.
  - eexists. split; [done|]. split; [|done].
    unfold initial_frames. by rewrite length_map, length_seq.
  - by rewrite bool_decide_eq_true_2 by lia.
  - by rewrite bool_decide_eq_true_2 by lia.
Qed.

(** Every build of a path of admissible length. *)
Lemma build_classify codec c r p func fuel :
  (1 ≤ length (hops p) ≤ MAXHOPS) →
  match build codec c r p func fuel with
  | Idle w' => done_inv p (initial_frames r) w'
  | Crashed w' =>
      ∃ k, k < length (hops p) ∧ aborted_inv p (initial_frames r) k w'
  | Pending w' =>
      fuel ≤ length (hops p)
      ∧ build_inv c p func (initial_frames r) fuel w'
  | Faulted => False
  end.
Proof.
  intros [H1 Hmax]. unfold build.
  pose proof (run_inv codec c p func (initial_frames r) Hmax fuel 0 _
                (build_inv_init c r p func H1) ltac:(lia)) as Hrun.
  destruct (run codec fuel _); simpl in *; try done.
  destruct Hrun as (k & ? & ?). exists k. split; [lia|done].
Qed.

Lemma build_completes codec c r p func fuel :
  (1 ≤ length (hops p) ≤ MAXHOPS) → length (hops p) < fuel →
  never_fails codec c →
  ∃ w', build codec c r p func fuel = Idle w'.
Proof.
  intros HN Hfuel Hnf.
  pose proof (build_classify codec c r p func fuel HN) as Hb.
  assert (never_fails codec
            (crypto (ctx (AsyncGenerateKeys p func (initial_world c r)))))
    as Hnf' by (by rewrite AsyncGenerateKeys_spec).
  pose proof (λ w', run_never_crashes codec fuel _ w' Hnf') as Hnc.
  unfold build in *.
  destruct (run codec fuel _) as [w'|w'| |w'].
  - by exists w'.
  - by destruct (Hnc w').
  - done.
  - simpl in Hb. lia.
Qed.

(** *** Shape of the expected traces *)

(** An explicit list of events does not hold [e]. *)
Ltac not_in_events :=
  let H := fresh in
  intros H; rewrite ?elem_of_cons, ?elem_of_nil in H;
  intuition discriminate.

Lemma trace_upto_add n a b :
  trace_upto n (a + b) =
  trace_upto n a ++ flat_map (hop_events n) (seq a b).
Proof. unfold trace_upto. by rewrite seq_app, flat_map_app. Qed.

Lemma hop_events_split n i :
  hop_events n i =
  [EvKeygen i; EvRandomizeNonce i; EvDhClient i; EvRandomizePathID i;
   EvSetUpstream i; EvBEncode i]
  ++ [EvEncryptInPlace i;
      if bool_decide (S i < n) then EvQueueWorker (S i) else EvQueueLogic].
Proof. done. Qed.

Lemma elem_of_hop_events e n i :
  e ∈ hop_events n i →
  hop_of e = Some i
  ∨ (S i < n ∧ e = EvQueueWorker (S i))
  ∨ (¬ S i < n ∧ e = EvQueueLogic).
Proof.
  unfold hop_events. rewrite !elem_of_cons, elem_of_nil.
  intros H.
  case_bool_decide;
    repeat (destruct H as [->|H]; [by auto|]); done.
Qed.

Lemma elem_of_flat_hop_events e n a b :
  e ∈ flat_map (hop_events n) (seq a b) →
  ∃ i, a ≤ i < a + b ∧ e ∈ hop_events n i.
Proof.
  rewrite list_elem_of_In, in_flat_map. intros (i & Hi & He).
  apply in_seq in Hi. exists i. by rewrite list_elem_of_In.
Qed.

Lemma elem_of_trace_upto e n k :
  e ∈ trace_upto n k →
  e = EvQueueWorker 0 ∨ ∃ i, i < k ∧ e ∈ hop_events n i.
Proof.
  unfold trace_upto. rewrite elem_of_cons. intros [->|H]; [by left|].
  right. apply elem_of_flat_hop_events in H as (i & ? & ?).
  exists i. split; [lia|done].
Qed.

Lemma omap_hop_of_hop_events n i :
  omap hop_of (hop_events n i) = replicate 7 i.
Proof. unfold hop_events. by case_bool_decide. Qed.

Lemma omap_hop_of_trace_upto n k :
  omap hop_of (trace_upto n k) = flat_map (replicate 7) (seq 0 k).
Proof.
  induction k as [|k IH]; [done|].
  rewrite trace_upto_S, omap_app, IH, omap_hop_of_hop_events.
  rewrite seq_S, flat_map_app.
  change (flat_map (replicate 7) [0 + k]) with (replicate 7 k ++ []).
  by rewrite app_nil_r.
Qed.

Lemma full_trace_in_order n : hops_in_order n (full_trace n).
Proof.
  unfold hops_in_order, full_trace.
  rewrite omap_app, omap_hop_of_trace_upto. simpl. by rewrite app_nil_r.
Qed.

Lemma full_trace_queued n : queued_by_previous_hop n (full_trace n).
Proof.
  intros i Hi. unfold full_trace.
  assert (trace_upto n n = trace_upto n (S i + (n - S i))) as ->
    by (f_equal; lia).
  rewrite trace_upto_add, trace_upto_S, hop_events_split.
  rewrite bool_decide_eq_true_2 by done.
  exists (trace_upto n i ++
          [EvKeygen i; EvRandomizeNonce i; EvDhClient i;
           EvRandomizePathID i; EvSetUpstream i; EvBEncode i]),
         (flat_map (hop_events n) (seq (S i) (n - S i)) ++ [EvResult]).
  split; [by rewrite <- !app_assoc|].
  split; [|split].
  - rewrite elem_of_app. intros [H|H].
    + apply elem_of_trace_upto in H as [?|(j & Hj & H)]; [done|].
      apply elem_of_hop_events in H as [?|[[_ ?]|[_ ?]]];
        simplify_eq/=; lia.
    + revert H. not_in_events.
  - rewrite elem_of_app. intros [H|H].
    + apply elem_of_flat_hop_events in H as (j & Hj & H).
      apply elem_of_hop_events in H as [?|[[_ ?]|[_ ?]]];
        simplify_eq/=; lia.
    + revert H. not_in_events.
  - rewrite elem_of_app. intros [H|H].
    + apply elem_of_trace_upto in H as [?|(j & Hj & H)]; [done|].
      apply elem_of_hop_events in H as [?|[[_ ?]|[_ ?]]];
        simplify_eq/=; lia.
    + rewrite !elem_of_cons, elem_of_nil in H.
      destruct H as [H|[H|[H|[H|[H|[H|H]]]]]]; simplify_eq/=; lia.
Qed.

Lemma full_trace_done_once n : 1 ≤ n → handle_done_once n (full_trace n).
Proof.
  intros Hn. unfold full_trace.
  assert (trace_upto n n = trace_upto n (S (n - 1))) as ->
    by (f_equal; lia).
  rewrite trace_upto_S, hop_events_split.
  rewrite bool_decide_eq_false_2 by lia.
  exists (trace_upto n (n - 1) ++
          [EvKeygen (n - 1); EvRandomizeNonce (n - 1); EvDhClient (n - 1);
           EvRandomizePathID (n - 1); EvSetUpstream (n - 1);
           EvBEncode (n - 1)]).
  split; [by rewrite <- !app_assoc|].
  split.
  - rewrite elem_of_app. intros [H|H].
    + apply elem_of_trace_upto in H as [?|(j & Hj & H)]; [done|].
      apply elem_of_hop_events in H as [?|[[_ ?]|[? ?]]];
        simplify_eq/=; lia.
    + revert H. not_in_events.
  - rewrite elem_of_app. intros [H|H].
    + apply elem_of_trace_upto in H as [?|(j & Hj & H)]; [done|].
      apply elem_of_hop_events in H as [?|[[_ ?]|[? ?]]];
        simplify_eq/=.
    + revert H. not_in_events.
Qed.

Lemma aborted_trace_no_completion p m0 k w :
  k < length (hops p) → aborted_inv p m0 k w →
  (EvQueueLogic ∉ trace w) ∧ (EvResult ∉ trace w)
  ∧ last (trace w) = Some EvAbort.
Proof.
  intros Hk (_ & _ & _ & n & msg & Hn & ->).
  assert (∀ e, e ∈ trace_upto (length (hops p)) k
                   ++ take n (hop_events (length (hops p)) k) →
               e ≠ EvQueueLogic ∧ e ≠ EvResult) as Hpre.
  { intros e. rewrite elem_of_app. intros [H|H].
    - apply elem_of_trace_upto in H as [->|(j & Hj & H)]; [done|].
      apply elem_of_hop_events in H as [?|[[_ ?]|[? ?]]];
        simplify_eq/=; try done; try lia.
      by destruct e.
    - unfold hop_events in H.
      do 8 (destruct n as [|n]; [cbn [take] in H;
        rewrite ?elem_of_cons, elem_of_nil in H;
        repeat (destruct H as [->|H]; [done|]); done|]).
      lia. }
  rewrite app_assoc.
  split; [|split].
  - rewrite elem_of_app. intros [H|H]; [by apply Hpre in H as [? ?]|].
    revert H. not_in_events.
  - rewrite elem_of_app. intros [H|H]; [by apply Hpre in H as [? ?]|].
    revert H. not_in_events.
  - by rewrite last_app.
Qed.

Lemma omap_hop_of_take n k m :
  m ≤ 7 → omap hop_of (take m (hop_events n k)) = replicate m k.
Proof.
  intros Hm. unfold hop_events.
  do 8 (destruct m as [|m]; [done|]). lia.
Qed.

Lemma aborted_trace_in_order p m0 k w :
  aborted_inv p m0 k w →
  ∃ m, m ≤ 7 ∧ omap hop_of (trace w)
                = flat_map (replicate 7) (seq 0 k) ++ replicate m k.
Proof.
  intros (_ & _ & _ & n & msg & Hn & ->). exists n. split; [done|].
  rewrite !omap_app, omap_hop_of_trace_upto, omap_hop_of_take by done.
  simpl. by rewrite app_nil_r.
Qed.

Lemma demo_never_fails : never_fails demo_codec demo_crypto.
Proof. by repeat split. Qed.

Lemma failing_step_aborts codec w f :
  failing_step codec w = Some f →
  ∃ w' evs, GenerateNextKey codec w = Aborted w'
      ∧ trace w' = trace w ++ evs ++ [EvError (failure_message f); EvAbort]
      ∧ (EvQueueLogic ∉ evs) ∧ (EvResult ∉ evs)
      ∧ worker_queue w' = worker_queue w
      ∧ logic_queue w' = logic_queue w.
Proof.
  unfold failing_step, GenerateNextKey. intros Hf.
  destruct (path (ctx w)) as [p|]; [|done].
  destruct (LRCM (ctx w)) as [m|]; [|done].
  destruct (hops p !! idx (ctx w)) as [hop|]; [|done].
  destruct (encryption_keygen _ _) as [key r1]. simpl in *.
  destruct (dh_client _ _ _ _ _) as [ok1 s]. simpl in *.
  destruct ok1; simpl in *.
  2:{ simplify_eq. eexists _, [_; _; _]. split; [done|]. simpl.
      split; [by rewrite <- !app_assoc|].
      repeat split; not_in_events. }
  destruct (frames m !! idx (ctx w)) as [frame|]; [|done].
  match goal with |- context [<[_ := ?h]> (hops p)] => set (hop' := h) end.
  assert (commkey hop' = key ∧ router hop' = router hop) as [Hkey Hr]
    by (subst hop'; by destruct (hops p !! S (idx (ctx w)))).
  clearbody hop'. rewrite Hkey, Hr.
  destruct (BEncode_record _ _ _) as [ok2 frame2]. simpl in *.
  destruct ok2; simpl in *.
  2:{ simplify_eq. eexists _, [_; _; _; _; _; _]. split; [done|]. simpl.
      split; [by rewrite <- !app_assoc|].
      repeat split; not_in_events. }
  destruct (EncryptInPlace _ _ _ _ _ _) as [[ok3 frame3] r4]. simpl in *.
  destruct ok3; simpl in *; [done|].
  simplify_eq. eexists _, [_; _; _; _; _; _; _]. split; [done|]. simpl.
  split; [by rewrite <- !app_assoc|].
  repeat split; not_in_events.
Qed.

Lemma run_add codec a : ∀ b w,
  run codec (a + b) w =
  match run codec a w with
  | Pending w1 => run codec b w1
  | res => res
  end.
Proof.
  induction a as [|a IH]; intros b w.
  - rewrite (run_unfold codec 0). simpl.
    destruct (next_job w) as [[j w1]|] eqn:E; [done|].
    by rewrite run_unfold, E.
  - rewrite (run_unfold codec (S a + b)), (run_unfold codec (S a) w).
    destruct (next_job w) as [[j w1]|]; [|done]. simpl.
    destruct (run_job codec j w1); [apply IH|done..].
Qed.

Lemma aborted_failing_step codec w w' n :
  GenerateNextKey codec w = Aborted w' →
  ∃ f, failing_step codec w = Some f
     ∧ trace w' = trace w ++ take (steps_done f) (hop_events n (idx (ctx w)))
                  ++ [EvError (failure_message f); EvAbort].
Proof.
  unfold failing_step, GenerateNextKey. intros H.
  destruct (path (ctx w)) as [p|]; [|done].
  destruct (LRCM (ctx w)) as [m|]; [|done].
  destruct (hops p !! idx (ctx w)) as [hop|]; [|done].
  destruct (encryption_keygen _ _) as [key r1]. simpl in *.
  destruct (dh_client _ _ _ _ _) as [ok1 s]. simpl in *.
  destruct ok1; simpl in *.
  2:{ exists DhClientFailed. split; [done|]. simplify_eq. simpl.
      by rewrite <- !app_assoc. }
  destruct (frames m !! idx (ctx w)) as [frame|]; [|done].
  match type of H with context [<[_ := ?h]> (hops p)] =>
    set (hop' := h) in * end.
  assert (commkey hop' = key ∧ router hop' = router hop) as [Hkey Hr]
    by (subst hop'; by destruct (hops p !! S (idx (ctx w)))).
  clearbody hop'. rewrite Hkey, Hr in H.
  destruct (BEncode_record _ _ _) as [ok2 frame2]. simpl in *.
  destruct ok2; simpl in *.
  2:{ exists BEncodeFailed. split; [done|]. simplify_eq. simpl.
      by rewrite <- !app_assoc. }
  destruct (EncryptInPlace _ _ _ _ _ _) as [[ok3 frame3] r4]. simpl in *.
  destruct ok3; simpl in *.
  2:{ exists EncryptFailed. split; [done|]. simplify_eq. simpl.
      by rewrite <- !app_assoc. }
  by case_bool_decide.
Qed.

Lemma returned_no_failing_step codec w w' :
  GenerateNextKey codec w = Returned w' → failing_step codec w = None.
Proof.
  intros H. destruct (failing_step codec w) as [f|] eqn:E; [|done].
  destruct (failing_step_aborts codec w f E) as (w2 & evs & Hab & _).
  congruence.
Qed.

Lemma steps_done_le f : steps_done f ≤ 7.
Proof. destruct f; simpl; lia. Qed.

Lemma elem_of_take_hop_events e n k m :
  m ≤ 7 → e ∈ take m (hop_events n k) → hop_of e = Some k.
Proof.
  intros Hm H. unfold hop_events in H.
  do 8 (destruct m as [|m]; [cbn [take] in H;
    rewrite ?elem_of_cons, elem_of_nil in H;
    repeat (destruct H as [->|H]; [done|]); done|]).
  lia.
Qed.

(** The trace of a build cut short in the job of hop [k]. *)
Lemma crashed_trace_queued n k m msg :
  k < n → m ≤ 7 →
  let tr := trace_upto n k ++ take m (hop_events n k)
            ++ [EvError msg; EvAbort] in
  queued_by_previous_hop (S k) tr
  ∧ ∀ i, k ≤ i → EvQueueWorker (S i) ∉ tr.
Proof.
  intros Hk Hm tr. subst tr. split.
  - intros i Hi.
    assert (trace_upto n k = trace_upto n (S i + (k - S i))) as ->
      by (f_equal; lia).
    rewrite trace_upto_add, trace_upto_S, hop_events_split.
    rewrite bool_decide_eq_true_2 by lia.
    exists (trace_upto n i ++
            [EvKeygen i; EvRandomizeNonce i; EvDhClient i;
             EvRandomizePathID i; EvSetUpstream i; EvBEncode i]),
           (flat_map (hop_events n) (seq (S i) (k - S i))
            ++ take m (hop_events n k) ++ [EvError msg; EvAbort]).
    split; [by rewrite <- !app_assoc|].
    split; [|split].
    + rewrite elem_of_app. intros [H|H].
      * apply elem_of_trace_upto in H as [?|(j & Hj & H)]; [done|].
        apply elem_of_hop_events in H as [?|[[_ ?]|[_ ?]]];
          simplify_eq/=; lia.
      * revert H. not_in_events.
    + rewrite !elem_of_app. intros [H|[H|H]].
      * apply elem_of_flat_hop_events in H as (j & Hj & H).
        apply elem_of_hop_events in H as [?|[[_ ?]|[_ ?]]];
          simplify_eq/=; lia.
      * by apply elem_of_take_hop_events in H.
      * revert H. not_in_events.
    + rewrite elem_of_app. intros [H|H].
      * apply elem_of_trace_upto in H as [?|(j & Hj & H)]; [done|].
        apply elem_of_hop_events in H as [?|[[_ ?]|[_ ?]]];
          simplify_eq/=; lia.
      * rewrite !elem_of_cons, elem_of_nil in H.
        destruct H as [H|[H|[H|[H|[H|[H|H]]]]]]; simplify_eq/=; lia.
  - intros i Hi. rewrite !elem_of_app. intros [H|[H|H]].
    + apply elem_of_trace_upto in H as [?|(j & Hj & H)]; [done|].
      apply elem_of_hop_events in H as [?|[[_ ?]|[_ ?]]];
        simplify_eq/=; lia.
    + by apply elem_of_take_hop_events in H.
    + revert H. not_in_events.
Qed.

Section Prefix.
Context (codec : frame_codec) (c : llarp_crypto) (r : rng) (p : Path)
        (func : nat).
Hypothesis HN : 1 ≤ length (hops p) ≤ MAXHOPS.

Lemma build_S k w :
  build codec c r p func k = Pending w →
  build codec c r p func (S k) = run codec 1 w.
Proof.
  unfold build. intros H. by rewrite <- Nat.add_1_r, run_add, H.
Qed.

Lemma build_add k j :
  build codec c r p func (k + j) =
  match build codec c r p func k with
  | Pending w => run codec j w
  | res => res
  end.
Proof. unfold build. apply run_add. Qed.

(** The first [k] jobs of a build: either they were the jobs of the hops
    0, ..., k-1 and no step failed, or a step failed in one of them. *)
Lemma build_prefix k :
  k ≤ length (hops p) →
  (∃ w, build codec c r p func k = Pending w
      ∧ build_inv c p func (initial_frames r) k w
      ∧ ∀ j, j < k → hop_ok codec c r p func j)
  ∨ (∃ j f w', j < k
      ∧ build codec c r p func k = Crashed w'
      ∧ (∀ i, i < j → hop_ok codec c r p func i)
      ∧ hop_crash codec c r p func j f w'
      ∧ trace w' = trace_upto (length (hops p)) j
                   ++ take (steps_done f) (hop_events (length (hops p)) j)
                   ++ [EvError (failure_message f); EvAbort]).
Proof.
  destruct HN as [H1 Hmax].
  induction k as [|k IH]; intros Hk.
  - left. eexists. split; [|split; [by apply build_inv_init|lia]].
    unfold build. by rewrite AsyncGenerateKeys_spec.
  - destruct IH as [(w & Hb & Hinv & Hok)
                    |(j & f & w' & Hj & Hb & Hok & Hcr & Htr)]; [lia| |].
    + destruct Hinv as (Hd & Hwq & Hlq).
      rewrite bool_decide_eq_true_2 in Hwq, Hlq by lia.
      set (wk := mkWorld (ctx w) [] [] (entropy w) (trace w)).
      assert (next_job w = Some (JobGenerateNextKey, wk)) as Hnext
        by (unfold next_job; by rewrite Hwq, Hlq).
      assert (idx (ctx wk) = k ∧ trace wk = trace_upto (length (hops p)) k)
        as [Hidx Htr] by (destruct Hd as (_ & _ & _ & _ & ? & ?); done).
      assert (hop_turn codec c r p func k wk) as Hturn.
      { exists w. unfold after_jobs, next_hop_job.
        by rewrite Hb, Hnext. }
      pose proof (GenerateNextKey_inv codec c p func (initial_frames r)
                    Hmax k wk Hd ltac:(lia) eq_refl eq_refl) as Hstep.
      rewrite (build_S k w Hb), run_unfold, Hnext. cbn [run_job].
      destruct (GenerateNextKey codec wk) as [w2|w2|] eqn:Egen; [| |done].
      * left. exists w2. split; [|split; [done|]].
        { rewrite run_unfold. unfold next_job.
          destruct Hstep as (_ & -> & ->). by case_bool_decide. }
        intros j Hj. destruct (decide (j = k)) as [->|]; [|apply Hok; lia].
        exists wk. eauto using returned_no_failing_step.
      * destruct (aborted_failing_step codec wk w2 (length (hops p)) Egen)
          as (f & Hf & Htr2).
        right. exists k, f, w2. split; [lia|]. split; [done|].
        split; [done|]. split; [by exists wk|].
        by rewrite Htr2, Htr, Hidx.
    + right. exists j, f, w'. split; [lia|]. split; [|done].
      by rewrite <- Nat.add_1_r, build_add, Hb.
Qed.

Lemma hop_turn_job k wk :
  hop_turn codec c r p func k wk → hop_job codec c r p func k = Some wk.
Proof.
  intros (w & Hw & _ & _ & Hn & _). unfold hop_job. by rewrite Hw.
Qed.

(** Every build of a path of admissible length that is given time to
    end, job by job. *)
Lemma build_account_holds fuel :
  length (hops p) < fuel →
  build_account codec c r p func (build codec c r p func fuel).
Proof.
  intros Hfuel.
  assert (fuel = length (hops p) + S (fuel - S (length (hops p)))) as ->
    by lia.
  rewrite build_add.
  destruct (build_prefix (length (hops p)) ltac:(lia))
    as [(w & Hb & Hinv & Hok)|(j & f & w' & Hj & Hb & Hok & Hcr & Htr)];
    rewrite Hb.
  - destruct Hinv as (Hd & Hwq & Hlq).
    rewrite bool_decide_eq_false_2 in Hwq, Hlq by lia.
    destruct (HandleDone_inv c p func (initial_frames r)
      (mkWorld (ctx w) [] [] (entropy w) (trace w)))
      as (w' & Hdone & Hinv'); [done..|].
    rewrite run_unfold. unfold next_job. rewrite Hwq, Hlq. simpl.
    rewrite Hdone, run_idle by apply Hinv'.
    split; [done|]. exists w. unfold after_jobs. rewrite Hb.
    by destruct Hd as (_ & _ & _ & _ & ? & _).
  - exists j, f. do 4 (split; [done|]). rewrite Htr.
    apply crashed_trace_queued; [done|apply steps_done_le].
Qed.

Lemma build_completes_when_no_step_fails fuel :
  length (hops p) < fuel →
  no_step_fails codec c r p func (length (hops p)) →
  ∃ w', build codec c r p func fuel = Idle w'.
Proof.
  intros Hfuel Hnf.
  pose proof (build_account_holds fuel Hfuel) as Hacc.
  destruct (build codec c r p func fuel) as [w'|w'| |w']; try done.
  - by exists w'.
  - destruct Hacc as (k & f & Hk & _ & (wk & Hturn & Hf & _) & _).
    apply hop_turn_job in Hturn. rewrite (Hnf k wk Hk Hturn) in Hf. done.
Qed.
End Prefix.

(** C1 (as amended).  A build of a path with N hops, 1 <= N <= MAXHOPS,
    given time to end, either runs to completion or is cut short by
    [abort()].  It runs to completion exactly when no step fails in the
    job of any hop: then job number i is the job of hop i, the one job
    queued at that point, for i = 0, ..., N-1; the job of hop i+1 is
    queued once, by the job of hop i right after it encrypted its frame;
    and [HandleDone] is queued exactly once, after the last frame is
    encrypted, as the one job left, and is run.  The build is cut short
    only in the job of a hop k in which a step failed: the jobs of the
    hops before k ran in that order without failure, the job of hop k
    logged the error of the failed step and called [abort()], the job of
    hop k+1 was never queued, and [HandleDone] is never queued. *)
Theorem build_order_C1 codec c r p func fuel :
  (1 ≤ length (hops p) ≤ MAXHOPS) → length (hops p) < fuel →
  build_order (length (hops p)) (build codec c r p func fuel)
  ∧ build_account codec c r p func (build codec c r p func fuel)
  ∧ (no_step_fails codec c r p func (length (hops p)) →
     ∃ w', build codec c r p func fuel = Idle w')
  ∧ (never_fails codec c → ∃ w', build codec c r p func fuel = Idle w').
Proof.
  intros HN Hfuel.
  split; [|split; [by apply build_account_holds|
           split; [by apply build_completes_when_no_step_fails
                  |by apply build_completes]]].
  pose proof (build_classify codec c r p func fuel HN) as Hb.
  destruct (build codec c r p func fuel) as [w'|w'| |w']; simpl in *.
  - destruct Hb as (_ & _ & _ & _ & _ & ->).
    split; [done|]. split; [apply full_trace_in_order|].
    split; [apply full_trace_queued|apply full_trace_done_once; lia].
  - destruct Hb as (k & Hk & Hab). split.
    + destruct (aborted_trace_in_order _ _ _ _ Hab) as (m & ? & ?).
      by exists k, m.
    + by apply (aborted_trace_no_completion p (initial_frames r) k).
  - done.
  - lia.
Qed.

Lemma demo_path3_no_step_fails :
  no_step_fails demo_codec demo_crypto demo_rng demo_path3 7 3.
Proof.
  intros k wk Hk Hjob.
  do 3 (destruct k as [|k];
    [vm_compute in Hjob; injection Hjob as <-; vm_compute; reflexivity|]).
  lia.
Qed.

Lemma build_order_C1_witness :
  (1 ≤ length (hops demo_path3) ≤ MAXHOPS)
  ∧ length (hops demo_path3) < 4
  ∧ no_step_fails demo_codec demo_crypto demo_rng demo_path3 7 3
  ∧ build_order 3 (build demo_codec demo_crypto demo_rng demo_path3 7 4)
  ∧ build_account demo_codec demo_crypto demo_rng demo_path3 7
      (build demo_codec demo_crypto demo_rng demo_path3 7 4)
  ∧ ∃ w', build demo_codec demo_crypto demo_rng demo_path3 7 4 = Idle w'.
Proof.
  split; [vm_compute; lia|]. split; [vm_compute; lia|].
  split; [exact demo_path3_no_step_fails|].
  pose proof (build_order_C1 demo_codec demo_crypto demo_rng demo_path3
                7 4 ltac:(vm_compute; lia) ltac:(vm_compute; lia))
    as (H1 & H2 & H3 & _).
  split; [exact H1|]. split; [exact H2|].
  exact (H3 demo_path3_no_step_fails).
Defined.

(** C1 as stated fails: with a key exchange that reports failure the
    process aborts in the job of hop 0 and [HandleDone] is not queued. *)
Lemma build_order_counterexample :
  (1 ≤ length (hops demo_path1) ≤ MAXHOPS)
  ∧ ∃ w', build demo_codec failing_crypto demo_rng demo_path1 7 5
          = Crashed w'
        ∧ count_event EvQueueLogic (trace w') = 0
        ∧ count_event EvResult (trace w') = 0.
Proof.
  split; [vm_compute; lia|]. eexists. split; [vm_compute; reflexivity|].
  split; vm_compute; reflexivity.
Qed.

Lemma hops_inv_chain p hs :
  hops_inv p (length (hops p)) hs → upstream_chain hs.
Proof.
  intros (Hlen & Hrouters & Hup). split.
  - intros i h next Hi Hnext.
    pose proof (lookup_lt_Some _ _ _ Hnext) as Hlt.
    rewrite (Hup i h) by (done || lia).
    by destruct (lookup_same_routers _ _ _ _ Hrouters Hnext)
      as (h0 & -> & ->).
  - intros h Hlast. rewrite last_lookup in Hlast.
    assert (0 < length hs) by
      (destruct hs; [done|simpl; lia]).
    rewrite (Hup (pred (length hs)) h) by (done || lia).
    by rewrite (proj2 (lookup_ge_None (hops p) (S (pred (length hs)))))
      by lia.
Qed.

(** C2.  Once the pipeline has handled all N hops of a path, every hop
    but the last has the router id of the hop after it as its upstream,
    and the last hop has its own router id as its upstream; the routers
    of the hops are those the path was given.  The pipeline does handle
    all the hops when it is run long enough and no step fails. *)
Theorem upstream_chain_C2 codec c r p func :
  (1 ≤ length (hops p) ≤ MAXHOPS) →
  (∀ fuel w', build codec c r p func fuel = Idle w' →
     length (hops_of w') = length (hops p)
     ∧ map router (hops_of w') = map router (hops p)
     ∧ upstream_chain (hops_of w'))
  ∧ (never_fails codec c → ∀ fuel, length (hops p) < fuel →
     ∃ w', build codec c r p func fuel = Idle w').
Proof.
  intros HN. split; [|eauto using build_completes].
  intros fuel w' Hrun.
  pose proof (build_classify codec c r p func fuel HN) as Hb.
  rewrite Hrun in Hb. destruct Hb as ((hs & Hp & Hhs) & _).
  unfold hops_of. rewrite Hp. simpl.
  pose proof Hhs as (? & ? & _). eauto using hops_inv_chain.
Qed.

Lemma upstream_chain_C2_witness :
  (1 ≤ length (hops demo_path3) ≤ MAXHOPS)
  ∧ ∃ w', build demo_codec demo_crypto demo_rng demo_path3 7 4 = Idle w'
        ∧ length (hops_of w') = 3
        ∧ map router (hops_of w') = map router (hops demo_path3)
        ∧ upstream_chain (hops_of w').
Proof.
  assert (1 ≤ length (hops demo_path3) ≤ MAXHOPS) as HN
    by (vm_compute; lia).
  split; [exact HN|]. eexists. split; [vm_compute; reflexivity|].
  apply (proj1 (upstream_chain_C2 demo_codec demo_crypto demo_rng
                  demo_path3 7 HN) 4).
  vm_compute; reflexivity.
Defined.

(** C3 (as amended).  When a step of the job for a hop reports failure
    (the key exchange, the encoding of the commit record or the encryption
    of the frame), [GenerateNextKey] logs the error of that step and calls
    [abort()]: no job is queued, [HandleDone] is not queued, the handler is
    not called, and the executors run nothing after it. *)
Theorem crypto_failure_aborts_C3 codec w f :
  failing_step codec w = Some f →
  ∃ w' evs, GenerateNextKey codec w = Aborted w'
      ∧ trace w' = trace w ++ evs ++ [EvError (failure_message f); EvAbort]
      ∧ (EvQueueLogic ∉ evs) ∧ (EvResult ∉ evs)
      ∧ worker_queue w' = worker_queue w
      ∧ logic_queue w' = logic_queue w
      ∧ ∀ fuel w0, next_job w0 = Some (JobGenerateNextKey, w) →
          run codec (S fuel) w0 = Crashed w'.
Proof.
  intros Hf.
  destruct (failing_step_aborts codec w f Hf)
    as (w' & evs & Hgen & Htr & Hl & Hr & Hwq & Hlq).
  exists w', evs. repeat split; try done.
  intros fuel w0 Hw0. rewrite run_unfold, Hw0. simpl. by rewrite Hgen.
Qed.

Lemma crypto_failure_aborts_C3_witness :
  let w := mkWorld (mkCtx (Some demo_path1) (Some 7) 0 failing_crypto
                          (Some (mkLRCM (initial_frames demo_rng))))
                   [] [] demo_rng [EvQueueWorker 0] in
  failing_step demo_codec w = Some DhClientFailed
  ∧ ∃ w' evs, GenerateNextKey demo_codec w = Aborted w'
      ∧ trace w' = trace w ++ evs
                   ++ [EvError (failure_message DhClientFailed); EvAbort]
      ∧ (EvQueueLogic ∉ evs) ∧ (EvResult ∉ evs)
      ∧ worker_queue w' = worker_queue w
      ∧ logic_queue w' = logic_queue w
      ∧ ∀ fuel w0, next_job w0 = Some (JobGenerateNextKey, w) →
          run demo_codec (S fuel) w0 = Crashed w'.
Proof.
  intros w. split; [vm_compute; reflexivity|].
  apply (crypto_failure_aborts_C3 demo_codec w DhClientFailed).
  vm_compute; reflexivity.
Defined.

(** C3 as stated fails: a build whose key exchange reports failure ends
    with [abort()]; the handler is never called. *)
Lemma crypto_failure_counterexample :
  ∃ w', build demo_codec failing_crypto demo_rng demo_path1 7 5
        = Crashed w'
      ∧ last (trace w') = Some EvAbort
      ∧ count_event EvResult (trace w') = 0
      ∧ logic_queue w' = [].
Proof.
  eexists. split; [vm_compute; reflexivity|].
  repeat split; vm_compute; reflexivity.
Qed.

(** C5.  [AsyncGenerateKeys] leaves a commit message of exactly MAXHOPS
    frames of 256 bytes, each filled from the random generator, before
    any hop is handled (nothing but the first job has happened); and in
    a build of a path with N hops the frames N, ..., MAXHOPS-1 are the
    same at every later point of the run, ended or not. *)
Theorem frames_padding_C5 codec c r p func :
  let w0 := AsyncGenerateKeys p func (initial_world c r) in
  length (frames_of w0) = MAXHOPS
  ∧ (∀ j f, frames_of w0 !! j = Some f →
       length f = 256 ∧ f = random_frame r j)
  ∧ trace w0 = [EvQueueWorker 0] ∧ idx (ctx w0) = 0
  ∧ ((1 ≤ length (hops p) ≤ MAXHOPS) →
     ∀ fuel, ∃ w', world_of (build codec c r p func fuel) = Some w'
       ∧ length (frames_of w') = MAXHOPS
       ∧ ∀ j, length (hops p) ≤ j < MAXHOPS →
           frames_of w' !! j = frames_of w0 !! j).
Proof.
  intros w0. subst w0. rewrite AsyncGenerateKeys_spec.
  unfold frames_of at 1 2 3.
  cbn [ctx LRCM from_option frames trace idx].
  split; [by unfold initial_frames; rewrite length_map, length_seq|].
  split.
  { intros j f Hj. unfold initial_frames in Hj.
    change (random_frame r <$> seq 0 MAXHOPS) with
      (fmap (M:=list) (random_frame r) (seq 0 MAXHOPS)) in Hj.
    apply list_lookup_fmap_Some in Hj as (j' & -> & Ej).
    apply lookup_seq in Ej as [-> _]. split; [|done].
    unfold random_frame. by rewrite length_map, length_seq. }
  do 2 (split; [done|]).
  intros HN fuel.
  pose proof (build_classify codec c r p func fuel HN) as Hb.
  destruct (build codec c r p func fuel) as [w'|w'| |w'];
    cbn [world_of]; [| | done |]; exists w'; (split; [done|]).
  - destruct Hb as (_ & (fs & Hm & Hlen & Hfs) & _).
    unfold frames_of at 1 2. rewrite Hm. cbn [from_option frames].
    split; [done|]. intros j Hj. apply Hfs. lia.
  - destruct Hb as (k & Hk & (fs & Hm & Hlen & Hfs) & _).
    unfold frames_of at 1 2. rewrite Hm. cbn [from_option frames].
    split; [done|]. intros j Hj. apply Hfs. lia.
  - destruct Hb as (Hfuel & (_ & (fs & Hm & Hlen & Hfs) & _) & _).
    unfold frames_of at 1 2. rewrite Hm. cbn [from_option frames].
    split; [done|]. intros j Hj. apply Hfs. lia.
Qed.

Lemma frames_padding_C5_witness :
  (1 ≤ length (hops demo_path1) ≤ MAXHOPS)
  ∧ ∀ fuel, ∃ w',
      world_of (build demo_codec demo_crypto demo_rng demo_path1 7 fuel)
      = Some w'
      ∧ length (frames_of w') = MAXHOPS
      ∧ ∀ j, length (hops demo_path1) ≤ j < MAXHOPS →
          frames_of w' !! j
          = frames_of (AsyncGenerateKeys demo_path1 7
                         (initial_world demo_crypto demo_rng)) !! j.
Proof.
  assert (1 ≤ length (hops demo_path1) ≤ MAXHOPS) as HN
    by (vm_compute; lia).
  split; [exact HN|].
  exact (proj2 (proj2 (proj2 (proj2
           (frames_padding_C5 demo_codec demo_crypto demo_rng demo_path1 7))))
           HN).
Defined.

Lemma index_of_here e l : index_of e (e :: l) = Some 0.
Proof. simpl. by rewrite decide_True. Qed.

Lemma index_of_later e x l :
  x ≠ e → index_of e (x :: l) = S <$> index_of e l.
Proof. intros. simpl. by rewrite decide_False. Qed.

Ltac find_event :=
  repeat (rewrite index_of_here || rewrite index_of_later by discriminate);
  cbn [fmap option_fmap option_map].

Lemma exchange_order_prefix i rest :
  exchange_order i
    ([EvKeygen i; EvRandomizeNonce i; EvDhClient i; EvRandomizePathID i]
     ++ rest).
Proof.
  split; [|intros _]; unfold occurs_before; cbn [app]; find_event; done.
Qed.

(** C6 (as amended).  In the job for a hop the nonce is randomized before
    the key exchange: [dh_client] is given the key just generated and the
    nonce just drawn, and the hop keeps both and the secret [dh_client]
    gave.  The path id is randomized after the key exchange, and only
    when it succeeded: when [dh_client] reports failure the job aborts,
    the hop still has the path id it had and the generator stands where
    the draw of the nonce left it; when it succeeds the path id is drawn
    from the generator as the draw of the nonce left it. *)
Theorem exchange_order_C6 codec w h :
  current_hop w = Some h →
  let i := idx (ctx w) in
  let x := key_exchange w h in
  match GenerateNextKey codec w with
  | Returned w' | Aborted w' =>
      ∃ evs h', trace w' = trace w ++ evs
        ∧ exchange_order i evs
        ∧ hops_of w' !! i = Some h'
        ∧ commkey h' = ex_key x ∧ nonce h' = ex_nonce x
        ∧ shared h' = ex_shared x
        ∧ (EvRandomizePathID i ∈ evs ↔ ex_ok x = true)
        ∧ (if ex_ok x
           then pathID h' = (Randomize (pathID h) (ex_entropy x)).1
           else pathID h' = pathID h
                ∧ entropy w' = ex_entropy x
                ∧ GenerateNextKey codec w = Aborted w'
                ∧ EvError (failure_message DhClientFailed) ∈ evs)
  | Undefined =>
      LRCM (ctx w) = None ∨ (ex_ok x = true ∧ frames_of w !! i = None)
  end.
Proof.
  unfold current_hop, hops_of, frames_of, key_exchange. intros Hh.
  destruct (GenerateNextKey codec w) as [w0|w0|] eqn:Egen; revert Egen;
    unfold GenerateNextKey;
    (destruct (path (ctx w)) as [p|]; [|done]);
    (destruct (LRCM (ctx w)) as [m|]; [|by auto]);
    simpl in Hh; rewrite Hh;
    pose proof (lookup_lt_Some _ _ _ Hh) as Hlt;
    (destruct (encryption_keygen _ _) as [key r1]); simpl;
    (destruct (dh_client _ _ _ _ _) as [ok1 s]); simpl;
    (destruct ok1; simpl;
     [destruct (frames m !! idx (ctx w)) as [frame|]; [|by auto];
      match goal with |- context [<[_ := ?hp]> (hops p)] =>
        set (hop' := hp) end;
      assert (commkey hop' = key
              ∧ nonce hop' = (Randomize (nonce h) r1).1
              ∧ shared hop' = s
              ∧ pathID hop' = (Randomize (pathID h)
                                 (Randomize (nonce h) r1).2).1)
        as (Hk & Hn & Hs & Hp)
        by (subst hop'; by destruct (hops p !! S (idx (ctx w))));
      clearbody hop';
      (destruct (BEncode_record _ _ _) as [ok2 frame2]); simpl;
      (destruct ok2; simpl;
       [(destruct (EncryptInPlace _ _ _ _ _ _) as [[ok3 frame3] r4]); simpl;
        (destruct ok3; simpl; [case_bool_decide; simpl|])|])|]);
    intros Egen; simplify_eq; simpl.
  all: try (eexists ([_; _; _; _] ++ _), hop';
    split; [by rewrite <- !app_assoc|];
    split; [apply exchange_order_prefix|];
    split; [by apply list_lookup_insert_eq|];
    do 3 (split; [done|]);
    split; [|done]; split; [done|intros _; set_solver]).
  eexists [_; _; _; _; _], _.
  split; [by rewrite <- !app_assoc|].
  split; [split; [unfold occurs_before; find_event; done|not_in_events]|].
  split; [by apply list_lookup_insert_eq|].
  do 3 (split; [done|]).
  split; [split; [not_in_events|done]|].
  split_and!; try done. set_solver.
Qed.

Lemma exchange_order_C6_witness :
  let w := demo_failing_world in
  let h := demo_hop x0a in
  current_hop w = Some h
  ∧ ex_ok (key_exchange w h) = false
  ∧ match GenerateNextKey demo_codec w with
    | Returned w' | Aborted w' =>
        ∃ evs h', trace w' = trace w ++ evs
          ∧ exchange_order 0 evs
          ∧ hops_of w' !! 0 = Some h'
          ∧ commkey h' = ex_key (key_exchange w h)
          ∧ nonce h' = ex_nonce (key_exchange w h)
          ∧ shared h' = ex_shared (key_exchange w h)
          ∧ (EvRandomizePathID 0 ∈ evs ↔ ex_ok (key_exchange w h) = true)
          ∧ (if ex_ok (key_exchange w h)
             then pathID h' = (Randomize (pathID h)
                                 (ex_entropy (key_exchange w h))).1
             else pathID h' = pathID h
                  ∧ entropy w' = ex_entropy (key_exchange w h)
                  ∧ GenerateNextKey demo_codec w = Aborted w'
                  ∧ EvError (failure_message DhClientFailed) ∈ evs)
    | Undefined =>
        LRCM (ctx w) = None
        ∨ (ex_ok (key_exchange w h) = true ∧ frames_of w !! 0 = None)
    end.
Proof.
  intros w h. split; [reflexivity|]. split; [reflexivity|].
  apply (exchange_order_C6 demo_codec w h). reflexivity.
Defined.

(** C6 as stated fails: on a one-hop path the path id is randomized
    after the key exchange, not before; and when the key exchange fails
    the path id of the hop has not been touched. *)
Lemma exchange_order_counterexample :
  (∃ w', build demo_codec demo_crypto demo_rng demo_path1 7 5 = Idle w'
       ∧ occurs_before (EvRandomizePathID 0) (EvDhClient 0) (trace w')
         = false
       ∧ occurs_before (EvDhClient 0) (EvRandomizePathID 0) (trace w')
         = true)
  ∧ (∃ w', build demo_codec failing_crypto demo_rng demo_path1 7 5
           = Crashed w'
         ∧ EvDhClient 0 ∈ trace w'
         ∧ pathID <$> hops_of w' !! 0 = Some (zero_buffer PATHIDSIZE)).
Proof.
  split.
  - eexists. split; [vm_compute; reflexivity|]. split; vm_compute; done.
  - eexists. split; [vm_compute; reflexivity|]. split; [|vm_compute; done].
    match goal with |- ?P => apply (bool_decide_unpack P) end.
    vm_compute. done.
Qed.

Lemma GenerateNextKey_undefined codec w :
  GenerateNextKey codec w = Undefined →
  path (ctx w) = None ∨ LRCM (ctx w) = None
  ∨ hops_of w !! idx (ctx w) = None
  ∨ frames_of w !! idx (ctx w) = None.
Proof.
  unfold GenerateNextKey, hops_of, frames_of.
  destruct (path (ctx w)) as [p|]; [|by auto].
  destruct (LRCM (ctx w)) as [m|]; [|by auto]. simpl.
  destruct (hops p !! idx (ctx w)) as [hop|]; [|by auto].
  destruct (frames m !! idx (ctx w)) as [frame|]; [|by auto].
  destruct (encryption_keygen _ _) as [key r1]. simpl.
  destruct (dh_client _ _ _ _ _) as [ok1 s]. simpl.
  destruct ok1; simpl; [|done].
  destruct (BEncode_record _ _ _) as [ok2 frame2]. simpl.
  destruct ok2; simpl; [|done].
  destruct (EncryptInPlace _ _ _ _ _ _) as [[ok3 frame3] r4]. simpl.
  destruct ok3; simpl; [|done]. by case_bool_decide.
Qed.

Lemma undefined_no_failing_step codec w :
  GenerateNextKey codec w = Undefined → failing_step codec w = None.
Proof.
  intros H. destruct (failing_step codec w) as [f|] eqn:E; [|done].
  destruct (failing_step_aborts codec w f E) as (w2 & evs & Hab & _).
  congruence.
Qed.
End PathBuildProps.

(** ** The embedding C ABI *)
Module LokinetSharedProps.
Import LokinetShared.


Lemma call_done_CallSafe call w : call_done (CallSafe call w) = w.
Proof.
  unfold call_done, CallSafe. simpl. rewrite removelast_last. by destruct w.
Qed.




(** The model does fault on a pointer that is not a live context, and a
    call that is answered in time does fill in the result. *)
Lemma dangling_context_faults env result remote local id a w :
  heap w !! a = None →
  lokinet_address (Some a) w = Fault
  ∧ lokinet_outbound_stream env result remote local (Some a) w = Fault
  ∧ lokinet_close_stream env id (Some a) w = Fault.
Proof.
  intros Ha.
  unfold lokinet_address, lokinet_outbound_stream, lokinet_close_stream.
  simpl. by rewrite Ha.
Qed.

Example outbound_stream_ready :
  ∃ out w',
    lokinet_outbound_stream (demo_env (Some 50)) demo_result
      "example.loki:443" None (Some 1%positive) demo_world = Ret out w'
    ∧ error (out_result out) = 0
    ∧ local_port (out_result out) = 443
    ∧ stream_id (out_result out) = 1
    ∧ waited_ms out = 50
    ∧ (heap w' !! 1%positive) ≫= (λ c, streams c !! 1) = Some false
    ∧ logic_queue w' = [].
Proof. eexists _, _. split; [vm_compute; reflexivity|]. by vm_compute. Qed.

(** C10.  Every exported function that takes a context accepts a null
    one: [lokinet_address] returns [nullptr], [lokinet_outbound_stream]
    sets [result->error] to [EHOSTDOWN] and returns,
    [lokinet_inbound_stream_filter] returns -1, [lokinet_close_stream]
    returns; so do [lokinet_inbound_stream], [lokinet_context_start],
    [lokinet_context_stop] and [lokinet_context_free].  Each returns
    without a fault and leaves the process as it was. *)
Theorem null_context_tolerated_C10 env w result remote local filter user
    id port :
  lokinet_address None w = Ret None w
  ∧ (∃ out, lokinet_outbound_stream env result remote local None w
            = Ret out w
          ∧ error (out_result out) = EHOSTDOWN
          ∧ local_address (out_result out) = local_address result
          ∧ local_port (out_result out) = local_port result
          ∧ stream_id (out_result out) = stream_id result)
  ∧ lokinet_inbound_stream_filter env filter user None w = Ret (-1) w
  ∧ lokinet_close_stream env id None w = Ret tt w
  ∧ lokinet_inbound_stream env port None w = Ret (-1) w
  ∧ lokinet_context_start env None w = Ret tt w
  ∧ lokinet_context_stop None w = Ret tt w
  ∧ lokinet_context_free None w = Ret tt w.
Proof.
  split; [done|]. split; [by eexists|]. repeat split.
Qed.
End LokinetSharedProps.

(** * Further properties *)

(** ** Transit-side records *)
Module TransitMore.
Import Buffers Transit TransitAux TransitProps.

Lemma byte_val_inj a b : byte_val a = byte_val b → a = b.
Proof.
  unfold byte_val. intros H.
  assert (Byte.to_N a = Byte.to_N b) as HN by lia.
  pose proof (Byte.of_to_N a) as Ea. pose proof (Byte.of_to_N b) as Eb.
  congruence.
Qed.

Lemma memcmp_refl a n : memcmp a a n = 0.
Proof.
  revert a. induction n as [|n IH]; intros [|x a]; simpl; try done.
  rewrite Z.ltb_irrefl. apply IH.
Qed.

Lemma memcmp_antisym a b n : memcmp b a n = - memcmp a b n.
Proof.
  revert a b. induction n as [|n IH]; intros [|x a] [|y b]; simpl; try done.
  destruct (Z.ltb_spec (byte_val x) (byte_val y)),
           (Z.ltb_spec (byte_val y) (byte_val x)); try done; lia.
Qed.

Lemma memcmp_zero a b n :
  (n ≤ length a)%nat → (n ≤ length b)%nat →
  memcmp a b n = 0 → take n a = take n b.
Proof.
  revert a b. induction n as [|n IH]; intros [|x a] [|y b] Ha Hb;
    simpl in *; try done; try lia.
  destruct (Z.ltb_spec (byte_val x) (byte_val y)) as [|Hxy]; [done|].
  destruct (Z.ltb_spec (byte_val y) (byte_val x)) as [|Hyx]; [done|].
  intros Hrest. f_equal.
  - apply byte_val_inj. lia.
  - apply IH; [lia|lia|done].
Qed.

Lemma memcmp_lt_total sz a b :
  length a = sz → length b = sz → a ≠ b →
  memcmp_lt sz a b = true ∨ memcmp_lt sz b a = true.
Proof.
  intros Ha Hb Hne. unfold memcmp_lt.
  rewrite (memcmp_antisym a b), !Z.ltb_lt.
  destruct (decide (memcmp a b sz = 0)) as [H0|]; [|lia].
  apply memcmp_zero in H0; [|lia..].
  rewrite !take_ge in H0 by lia. done.
Qed.

Lemma memcmp_lt_irrefl sz a : memcmp_lt sz a a = false.
Proof. unfold memcmp_lt. by rewrite memcmp_refl. Qed.

Lemma Hash_prefixes u0 u1 u2 a :
  length u0 = sizeof_size_t → length u1 = sizeof_size_t →
  length u2 = sizeof_size_t →
  Hash u0 u1 u2 a =
    Z.lxor (Z.lxor (size_t_of_bytes (take sizeof_size_t (upstream a)))
                   (size_t_of_bytes (take sizeof_size_t (downstream a))))
           (size_t_of_bytes (take sizeof_size_t (pathID a))).
Proof. intros. unfold Hash. by rewrite !memcpy_size_t. Qed.

(** X1.  The hash agrees with [operator==]: when the comparison of two
    buffers holds only of buffers with the same bytes, two values that
    [operator==] takes as equal are the same value and have the same hash,
    whatever the locals of the two calls held; and [operator!=] is false
    of them. *)
Theorem Hash_respects_eq (PathID_eq RouterID_eq
    : list byte_t → list byte_t → bool) u0 u1 u2 v0 v1 v2 a b :
  (∀ x y, PathID_eq x y = true → x = y) →
  (∀ x y, RouterID_eq x y = true → x = y) →
  length u0 = sizeof_size_t → length u1 = sizeof_size_t →
  length u2 = sizeof_size_t → length v0 = sizeof_size_t →
  length v1 = sizeof_size_t → length v2 = sizeof_size_t →
  info_eqb PathID_eq RouterID_eq a b = true →
  a = b
  ∧ Hash u0 u1 u2 a = Hash v0 v1 v2 b
  ∧ info_neqb PathID_eq RouterID_eq a b = false.
Proof.
  intros HP HR Hu0 Hu1 Hu2 Hv0 Hv1 Hv2 Heq.
  assert (a = b) as ->.
  { unfold info_eqb in Heq. rewrite !andb_true_iff in Heq.
    destruct Heq as [[H1 H2] H3].
    apply HP in H1. apply HR in H2. apply HR in H3.
    destruct a, b; simpl in *. congruence. }
  split; [done|]. split; [by rewrite !Hash_prefixes|].
  unfold info_neqb. by rewrite Heq.
Qed.

Lemma Hash_respects_eq_witness :
  let eqb := λ x y : list byte_t, bool_decide (x = y) in
  let a := demo_info x03 x05 x09 in
  (∀ x y, eqb x y = true → x = y)
  ∧ length demo_local = sizeof_size_t
  ∧ info_eqb eqb eqb a a = true
  ∧ Hash demo_local demo_local demo_local a
    = Hash (zero_buffer 8) (zero_buffer 8) (zero_buffer 8) a
  ∧ info_neqb eqb eqb a a = false.
Proof.
  intros eqb a.
  assert (∀ x y, eqb x y = true → x = y) as He
    by (intros x y; apply bool_decide_eq_true_1).
  assert (info_eqb eqb eqb a a = true) as Haa
    by (unfold info_eqb, eqb; by rewrite !bool_decide_eq_true_2).
  split; [exact He|]. split; [reflexivity|]. split; [exact Haa|].
  exact (proj2 (Hash_respects_eq eqb eqb demo_local demo_local demo_local
                  (zero_buffer 8) (zero_buffer 8) (zero_buffer 8) a a
                  He He eq_refl eq_refl eq_refl eq_refl eq_refl eq_refl
                  Haa)).
Defined.

(** X2.  The hash does not tell the two directions of a hop apart: a
    value and the value with [upstream] and [downstream] exchanged have
    the same hash; and when [upstream] and [downstream] start with the
    same [sizeof(size_t)] bytes the two cancel, and the hash is the
    [PathIDHash] of the path id. *)
Theorem Hash_direction_blind u0 u1 u2 a :
  length u0 = sizeof_size_t → length u1 = sizeof_size_t →
  length u2 = sizeof_size_t →
  Hash u0 u1 u2 (reversed a) = Hash u0 u1 u2 a
  ∧ (same_prefix (upstream a) (downstream a) →
     Hash u0 u1 u2 a = PathIDHash u2 (pathID a)).
Proof.
  intros H0 H1 H2. rewrite !Hash_prefixes by done. simpl. split.
  - f_equal. apply Z.lxor_comm.
  - unfold same_prefix, PathIDHash. intros ->.
    by rewrite Z.lxor_nilpotent, Z.lxor_0_l, memcpy_size_t.
Qed.

Lemma Hash_direction_blind_witness :
  let a := demo_info x03 x05 x09 in
  length demo_local = sizeof_size_t
  ∧ a ≠ reversed a
  ∧ Hash demo_local demo_local demo_local (reversed a)
    = Hash demo_local demo_local demo_local a.
Proof.
  intros a. split; [reflexivity|]. split; [by vm_compute|].
  exact (proj1 (Hash_direction_blind demo_local demo_local demo_local a
                  eq_refl eq_refl eq_refl)).
Defined.

(** X3.  The two hashes read the first [sizeof(size_t)] bytes of a buffer
    and nothing else: values whose three fields start with the same bytes
    have the same [Hash], and path ids that start with the same bytes have
    the same [PathIDHash], which is a [size_t]. *)
Theorem Hash_reads_prefix_only u0 u1 u2 v0 v1 v2 a b :
  length u0 = sizeof_size_t → length u1 = sizeof_size_t →
  length u2 = sizeof_size_t → length v0 = sizeof_size_t →
  length v1 = sizeof_size_t → length v2 = sizeof_size_t →
  (same_prefix (upstream a) (upstream b) →
   same_prefix (downstream a) (downstream b) →
   same_prefix (pathID a) (pathID b) →
   Hash u0 u1 u2 a = Hash v0 v1 v2 b)
  ∧ (same_prefix (pathID a) (pathID b) →
     PathIDHash u0 (pathID a) = PathIDHash v0 (pathID b))
  ∧ 0 ≤ PathIDHash u0 (pathID a) ≤ SIZE_MAX.
Proof.
  intros Hu0 Hu1 Hu2 Hv0 Hv1 Hv2. unfold same_prefix, PathIDHash.
  rewrite !Hash_prefixes, !memcpy_size_t by done.
  split; [by intros -> -> ->|]. split; [by intros ->|].
  apply size_t_value_range.
Qed.

Lemma Hash_reads_prefix_only_witness :
  let a := mkTransitHopInfo (replicate 8 x01 ++ replicate 8 x02)
             (replicate PUBKEYSIZE x05) (replicate PUBKEYSIZE x09) in
  let b := mkTransitHopInfo (replicate 8 x01 ++ replicate 8 x07)
             (replicate PUBKEYSIZE x05) (replicate PUBKEYSIZE x09) in
  length demo_local = sizeof_size_t
  ∧ same_prefix (pathID a) (pathID b)
  ∧ pathID a ≠ pathID b
  ∧ Hash demo_local demo_local demo_local a
    = Hash demo_local demo_local demo_local b
  ∧ PathIDHash demo_local (pathID a) = PathIDHash demo_local (pathID b).
Proof.
  intros a b.
  pose proof (Hash_reads_prefix_only demo_local demo_local demo_local
                demo_local demo_local demo_local a b
                eq_refl eq_refl eq_refl eq_refl eq_refl eq_refl)
    as (HH & HP & _).
  split; [reflexivity|]. split; [reflexivity|]. split; [by vm_compute|].
  split; [by apply HH|by apply HP].
Defined.

(** X4.  With the buffers ordered by [memcmp], [operator<] never holds of
    a value and itself, and of two different well-formed values at least
    one is below the other. *)
Theorem info_ltb_irreflexive_total a b :
  wf_info a → wf_info b →
  info_ltb_memcmp a a = false
  ∧ (a ≠ b → info_ltb_memcmp a b = true ∨ info_ltb_memcmp b a = true).
Proof.
  intros (Ha1 & Ha2 & Ha3) (Hb1 & Hb2 & Hb3).
  unfold info_ltb_memcmp, info_ltb. split.
  - by rewrite !memcmp_lt_irrefl.
  - intros Hne. rewrite !orb_true_iff.
    destruct (decide (pathID a = pathID b)) as [E1|N1];
      [|destruct (memcmp_lt_total PATHIDSIZE _ _ Ha1 Hb1 N1); tauto].
    destruct (decide (upstream a = upstream b)) as [E2|N2];
      [|destruct (memcmp_lt_total PUBKEYSIZE _ _ Ha2 Hb2 N2); tauto].
    destruct (decide (downstream a = downstream b)) as [E3|N3];
      [|destruct (memcmp_lt_total PUBKEYSIZE _ _ Ha3 Hb3 N3); tauto].
    destruct a, b; simpl in *; congruence.
Qed.

Lemma info_ltb_irreflexive_total_witness :
  let a := demo_info x03 x05 x09 in
  let b := demo_info x03 x05 x0a in
  wf_info a ∧ wf_info b ∧ a ≠ b
  ∧ info_ltb_memcmp a a = false
  ∧ (info_ltb_memcmp a b = true ∨ info_ltb_memcmp b a = true).
Proof.
  intros a b.
  assert (wf_info a) as Ha by (by vm_compute).
  assert (wf_info b) as Hb by (by vm_compute).
  assert (a ≠ b) as Hne by (by vm_compute).
  pose proof (info_ltb_irreflexive_total a b Ha Hb) as [H1 H2].
  split; [exact Ha|]. split; [exact Hb|]. split; [exact Hne|].
  split; [exact H1|exact (H2 Hne)].
Defined.
End TransitMore.

(** ** The path build pipeline *)
Module PathBuildMore.
Import Buffers PathBuild PathBuildAux PathBuildProps.
Local Open Scope nat_scope.

Lemma GenerateNextKey_returned codec w w' :
  GenerateNextKey codec w = Returned w' →
  ∃ p m hop frame hop' frame',
    path (ctx w) = Some p ∧ LRCM (ctx w) = Some m
    ∧ hops p !! idx (ctx w) = Some hop
    ∧ frames m !! idx (ctx w) = Some frame
    ∧ path (ctx w') = Some (set_hops (<[idx (ctx w) := hop']> (hops p)) p)
    ∧ LRCM (ctx w')
      = Some (mkLRCM (<[idx (ctx w) := frame']> (frames m)))
    ∧ idx (ctx w') = S (idx (ctx w))
    ∧ result (ctx w') = result (ctx w)
    ∧ hop_done (crypto (ctx w)) hop hop'
    ∧ frame_done codec (crypto (ctx w)) frame frame' hop'
    ∧ worker_queue w' = worker_queue w ++
        (if bool_decide (S (idx (ctx w)) < length (hops p))
         then [JobGenerateNextKey] else [])
    ∧ logic_queue w' = logic_queue w ++
        (if bool_decide (S (idx (ctx w)) < length (hops p))
         then [] else [JobHandleDone]).
Proof.
  unfold GenerateNextKey. intros H.
  destruct (path (ctx w)) as [p|]; [|done].
  destruct (LRCM (ctx w)) as [m|]; [|done].
  destruct (hops p !! idx (ctx w)) as [hop|] eqn:Ehop; [|done].
  destruct (encryption_keygen _ _) as [key r1] eqn:Ekey. simpl in H.
  destruct (dh_client _ _ _ _ _) as [ok1 s] eqn:Edh. simpl in H.
  destruct ok1; [|done]. simpl in H.
  destruct (frames m !! idx (ctx w)) as [frame|] eqn:Eframe; [|done].
  match type of H with context [<[_ := ?h]> (hops p)] => set (hop' := h) in * end.
  assert (hop_done (crypto (ctx w)) hop hop') as Hdone.
  { assert (router hop' = router hop ∧ commkey hop' = key
            ∧ nonce hop' = (Randomize (nonce hop) r1).1
            ∧ pathID hop' = (Randomize (pathID hop)
                               (Randomize (nonce hop) r1).2).1
            ∧ shared hop' = s) as (Hr & Hk & Hn & Hp & Hs)
      by (subst hop'; by destruct (hops p !! S (idx (ctx w)))).
    unfold hop_done. rewrite Hr, Hk, Hn, Hp, Hs.
    split; [done|]. unfold Randomize, randombytes. simpl.
    rewrite !length_map, !length_seq. do 2 (split; [done|]).
    split; [exists (entropy w); by rewrite Ekey|].
    exists (shared hop). exact Edh. }
  assert (commkey hop' = key ∧ router hop' = router hop) as [Hkey Hr]
    by (subst hop'; by destruct (hops p !! S (idx (ctx w)))).
  clearbody hop'.
  destruct (BEncode_record _ _ _) as [ok2 frame2] eqn:Eenc. simpl in H.
  destruct ok2; [|done]. simpl in H.
  destruct (EncryptInPlace _ _ _ _ _ _) as [[ok3 frame3] r4] eqn:Ecry.
  simpl in H. destruct ok3; [|done]. simpl in H.
  rewrite length_insert in H.
  exists p, m, hop, frame, hop', frame3.
  assert (frame_done codec (crypto (ctx w)) frame frame3 hop') as Hfd
    by (unfold frame_done; eauto).
  case_bool_decide; simplify_eq/=; rewrite ?app_nil_r; split_and!; done.
Qed.

(** X5.  A build never has two jobs queued: at every point between two
    jobs exactly one job is queued, on the pool or on the logic thread,
    and none is left when the build has ended or was aborted. *)
Theorem one_job_at_a_time codec c r p func fuel :
  (1 ≤ length (hops p) ≤ MAXHOPS) →
  match build codec c r p func fuel with
  | Pending w' => jobs_queued w' = 1
  | Idle w' | Crashed w' => jobs_queued w' = 0
  | Faulted => False
  end.
Proof.
  intros HN.
  pose proof (build_classify codec c r p func fuel HN) as Hb.
  destruct (build codec c r p func fuel) as [w'|w'| |w']; unfold jobs_queued.
  - destruct Hb as (_ & _ & _ & -> & -> & _). done.
  - destruct Hb as (k & _ & _ & -> & -> & _). done.
  - done.
  - destruct Hb as (_ & _ & -> & ->). by case_bool_decide.
Qed.

Lemma one_job_at_a_time_witness :
  (1 ≤ length (hops demo_path3) ≤ MAXHOPS)
  ∧ match build demo_codec demo_crypto demo_rng demo_path3 7 2 with
    | Pending w' => jobs_queued w' = 1
    | Idle w' | Crashed w' => jobs_queued w' = 0
    | Faulted => False
    end.
Proof.
  assert (1 ≤ length (hops demo_path3) ≤ MAXHOPS) as HN
    by (vm_compute; lia).
  split; [exact HN|].
  exact (one_job_at_a_time demo_codec demo_crypto demo_rng demo_path3 7 2 HN).
Defined.

(** X6.  A path without hops cannot be built: [AsyncGenerateKeys] queues
    the first job all the same, and that job reads [hops[0]] of an empty
    vector. *)
Theorem empty_path_faults codec c r p func fuel :
  hops p = [] →
  worker_queue (AsyncGenerateKeys p func (initial_world c r))
    = [JobGenerateNextKey]
  ∧ build codec c r p func (S fuel) = Faulted.
Proof.
  intros Hp. unfold build. rewrite AsyncGenerateKeys_spec.
  split; [done|]. rewrite run_unfold. simpl.
  unfold GenerateNextKey. simpl. by rewrite Hp.
Qed.

Lemma empty_path_faults_witness :
  hops (mkPath [] 0%Z ePathBuilding) = []
  ∧ build demo_codec demo_crypto demo_rng (mkPath [] 0%Z ePathBuilding) 7 1
    = Faulted.
Proof.
  split; [reflexivity|].
  exact (proj2 (empty_path_faults demo_codec demo_crypto demo_rng
                  (mkPath [] 0%Z ePathBuilding) 7 0 eq_refl)).
Defined.

Section Progress.
Context (codec : frame_codec) (c : llarp_crypto) (r : rng) (p : Path)
        (func : nat).
Hypothesis Hmax : length (hops p) ≤ MAXHOPS.

Lemma initial_frames_lookup k :
  k < MAXHOPS → initial_frames r !! k = Some (random_frame r k).
Proof.
  intros Hk. unfold initial_frames.
  change (map (random_frame r) (seq 0 MAXHOPS))
    with (fmap (M:=list) (random_frame r) (seq 0 MAXHOPS)).
  rewrite list_lookup_fmap, lookup_seq_lt by done. done.
Qed.

Lemma progress_step k w w' :
  build_inv c p func (initial_frames r) k
    (mkWorld (ctx w) [JobGenerateNextKey] [] (entropy w) (trace w)) →
  progress codec c r p k w → k < length (hops p) →
  GenerateNextKey codec w = Returned w' →
  progress codec c r p (S k) w'.
Proof.
  intros (Hd & _ & _) Hprog Hk Hgen.
  destruct Hd as (_ & (fs & Hfs & _ & Hinit) & _ & Hc & Hidx & _).
  simpl in Hfs, Hc, Hidx.
  destruct (GenerateNextKey_returned codec w w' Hgen)
    as (p1 & m & hop & frame & hop' & frame' & Hp1 & Hm & Hhop & Hframe
        & Hp' & Hm' & _ & _ & Hhd & Hfd & _).
  rewrite Hidx in Hhop, Hframe, Hp', Hm'. rewrite Hc in Hhd, Hfd.
  rewrite Hfs in Hm. injection Hm as <-. simpl in Hframe, Hm'.
  intros i h0 Hi. destruct (Hprog i h0 Hi) as (h & Hh & Hcase).
  unfold hops_of, frames_of in *. rewrite Hp1 in Hh. rewrite Hp', Hm'.
  rewrite Hfs in Hcase. simpl in *.
  destruct (decide (i = k)) as [->|Hne].
  - rewrite bool_decide_eq_false_2 in Hcase by lia. subst h.
    rewrite bool_decide_eq_true_2 by lia.
    exists hop'. rewrite list_lookup_insert_eq
      by (by apply lookup_lt_Some in Hhop).
    assert (hop = h0) as -> by congruence.
    split; [done|]. split; [done|].
    exists frame'. rewrite list_lookup_insert_eq
      by (by apply lookup_lt_Some in Hframe).
    split; [done|].
    rewrite Hinit, initial_frames_lookup in Hframe by lia.
    by simplify_eq.
  - exists h. rewrite !list_lookup_insert_ne by done. split; [done|].
    destruct (decide (i < k)).
    + rewrite bool_decide_eq_true_2 in Hcase by done.
      by rewrite bool_decide_eq_true_2 by lia.
    + rewrite bool_decide_eq_false_2 in Hcase by done.
      by rewrite bool_decide_eq_false_2 by lia.
Qed.

Lemma run_progress fuel : ∀ k w,
  build_inv c p func (initial_frames r) k w →
  progress codec c r p k w → k ≤ length (hops p) →
  match run codec fuel w with
  | Idle w' => progress codec c r p (length (hops p)) w'
  | _ => True
  end.
Proof.
  induction fuel as [|fuel IH]; intros k w Hinv Hprog Hk;
    pose proof Hinv as (Hd & Hwq & Hlq);
    rewrite run_unfold; unfold next_job; rewrite Hwq, Hlq;
    case_bool_decide as Hlt; simpl; try done.
  - set (w1 := mkWorld (ctx w) [] [] (entropy w) (trace w)).
    pose proof (GenerateNextKey_inv codec c p func (initial_frames r)
                  Hmax k w1) as Hstep.
    destruct (GenerateNextKey codec w1) as [w2| |] eqn:Egen; try done.
    apply (IH (S k)); [by apply Hstep| |lia].
    apply (progress_step k w1); [|done|done|done].
    split; [done|]. simpl. by rewrite bool_decide_eq_true_2.
  - assert (k = length (hops p)) as -> by lia.
    unfold HandleDone. simpl.
    destruct Hd as (_ & _ & -> & _). by rewrite run_idle.
Qed.

Lemma build_progress fuel w' :
  1 ≤ length (hops p) →
  build codec c r p func fuel = Idle w' →
  progress codec c r p (length (hops p)) w'.
Proof.
  intros H1 Hrun. unfold build in Hrun.
  pose proof (run_progress fuel 0 _ (build_inv_init c r p func H1)) as Hp.
  rewrite Hrun in Hp. apply Hp; [|lia].
  intros i h0 Hi. rewrite AsyncGenerateKeys_spec. unfold hops_of. simpl.
  eauto.
Qed.
End Progress.

(** X9.  When a build has run to completion, every hop of the path holds
    a shared secret that is what [dh_client] gave for the encryption key
    of the hop's router, the key generated for the hop and the nonce that
    the hop holds; the router of the hop and the sizes of its nonce and
    path id are those the path was given. *)
Theorem shared_secrets_derived codec c r p func fuel w' :
  (1 ≤ length (hops p) ≤ MAXHOPS) →
  build codec c r p func fuel = Idle w' →
  ∀ i h0, hops p !! i = Some h0 →
    ∃ h, hops_of w' !! i = Some h ∧ hop_done c h0 h.
Proof.
  intros [H1 Hmax] Hrun i h0 Hi.
  destruct (build_progress codec c r p func Hmax fuel w' H1 Hrun i h0 Hi)
    as (h & Hh & Hcase).
  apply lookup_lt_Some in Hi.
  rewrite bool_decide_eq_true_2 in Hcase by done.
  exists h. by destruct Hcase.
Qed.

Lemma shared_secrets_derived_witness :
  (1 ≤ length (hops demo_path3) ≤ MAXHOPS)
  ∧ ∃ w', build demo_codec demo_crypto demo_rng demo_path3 7 4 = Idle w'
    ∧ ∀ i h0, hops demo_path3 !! i = Some h0 →
        ∃ h, hops_of w' !! i = Some h ∧ hop_done demo_crypto h0 h.
Proof.
  assert (1 ≤ length (hops demo_path3) ≤ MAXHOPS) as HN
    by (vm_compute; lia).
  split; [exact HN|]. eexists. split; [vm_compute; reflexivity|].
  apply (shared_secrets_derived demo_codec demo_crypto demo_rng demo_path3
           7 4 _ HN).
  vm_compute; reflexivity.
Defined.

(** X10.  When a build has run to completion, frame [i] of the commit
    message, for every hop [i] of the path, is the frame that
    [AsyncGenerateKeys] filled with random bytes, with the commit record
    encoded into it after the overhead and then encrypted in place with
    the key of hop [i] for the encryption key of the router of hop [i]. *)
Theorem frames_encrypted_for_hops codec c r p func fuel w' :
  (1 ≤ length (hops p) ≤ MAXHOPS) →
  build codec c r p func fuel = Idle w' →
  ∀ i h, hops_of w' !! i = Some h →
    ∃ f, frames_of w' !! i = Some f
       ∧ frame_done codec c (random_frame r i) f h.
Proof.
  intros [H1 Hmax] Hrun i h Hi.
  pose proof (build_classify codec c r p func fuel (conj H1 Hmax)) as Hb.
  rewrite Hrun in Hb. destruct Hb as ((hs & Hp & Hlen & _) & _).
  assert (i < length (hops p)) as Hlt.
  { apply lookup_lt_Some in Hi. unfold hops_of in Hi. rewrite Hp in Hi.
    simpl in Hi. lia. }
  destruct (lookup_lt_is_Some_2 (hops p) i Hlt) as [h0 Hh0].
  destruct (build_progress codec c r p func Hmax fuel w' H1 Hrun i h0 Hh0)
    as (h1 & Hh1 & Hcase).
  rewrite bool_decide_eq_true_2 in Hcase by done.
  assert (h1 = h) as -> by congruence. by destruct Hcase.
Qed.

Lemma frames_encrypted_for_hops_witness :
  (1 ≤ length (hops demo_path3) ≤ MAXHOPS)
  ∧ ∃ w', build demo_codec demo_crypto demo_rng demo_path3 7 4 = Idle w'
    ∧ ∀ i h, hops_of w' !! i = Some h →
        ∃ f, frames_of w' !! i = Some f
           ∧ frame_done demo_codec demo_crypto (random_frame demo_rng i) f h.
Proof.
  assert (1 ≤ length (hops demo_path3) ≤ MAXHOPS) as HN
    by (vm_compute; lia).
  split; [exact HN|]. eexists. split; [vm_compute; reflexivity|].
  apply (frames_encrypted_for_hops demo_codec demo_crypto demo_rng
           demo_path3 7 4 _ HN).
  vm_compute; reflexivity.
Defined.

Section LongPath.
Context (codec : frame_codec) (p : Path) (func : nat).
Hypothesis Hlong : MAXHOPS < length (hops p).

Lemma long_step k w w' :
  long_inv p func k
    (mkWorld (ctx w) [JobGenerateNextKey] [] (entropy w) (trace w)) →
  worker_queue w = [] → logic_queue w = [] →
  GenerateNextKey codec w = Returned w' →
  k < MAXHOPS ∧ long_inv p func (S k) w'.
Proof.
  intros ((hs & Hp & Hlen) & (fs & Hm & Hflen) & Hidx & Hres & _) Hwq Hlq
    Hgen. simpl in *.
  destruct (GenerateNextKey_returned codec w w' Hgen)
    as (p1 & m & hop & frame & hop' & frame' & Hp1 & Hm1 & Hhop & Hframe
        & Hp' & Hm' & Hidx' & Hres' & _ & _ & Hwq' & Hlq').
  rewrite Hp in Hp1. injection Hp1 as <-.
  rewrite Hm in Hm1. injection Hm1 as <-. simpl in *.
  rewrite Hidx in *.
  assert (k < MAXHOPS) as Hk
    by (apply lookup_lt_Some in Hframe; lia).
  split; [done|].
  rewrite Hwq, Hlen, bool_decide_eq_true_2 in Hwq' by lia.
  rewrite Hlq, Hlen, bool_decide_eq_true_2 in Hlq' by lia.
  split_and!; try done.
  - eexists. split; [done|]. by rewrite length_insert.
  - eexists. split; [done|]. by rewrite length_insert.
  - congruence.
Qed.

Lemma run_long fuel : ∀ k w,
  long_inv p func k w → k ≤ MAXHOPS →
  match run codec fuel w with
  | Idle _ => False
  | Pending _ => k + fuel ≤ MAXHOPS
  | _ => True
  end.
Proof.
  induction fuel as [|fuel IH]; intros k w Hinv Hk;
    pose proof Hinv as (_ & _ & _ & _ & Hwq & Hlq);
    rewrite run_unfold; unfold next_job; rewrite Hwq, ?Hlq; simpl;
    [lia|].
  set (w1 := mkWorld (ctx w) [] [] (entropy w) (trace w)).
  destruct (GenerateNextKey codec w1) as [w2| |] eqn:Egen; try done.
  destruct (long_step k w1 w2) as [Hlt Hinv2]; try done.
  { destruct Hinv as (? & ? & ? & ? & _). by split_and!. }
  specialize (IH (S k) w2 Hinv2 ltac:(lia)).
  destruct (run codec fuel w2); try done. lia.
Qed.
End LongPath.

Section LongBuild.
Context (codec : frame_codec) (c : llarp_crypto) (r : rng) (p : Path)
        (func : nat).
Hypothesis Hlong : MAXHOPS < length (hops p).

Lemma long_inv_init :
  long_inv p func 0 (AsyncGenerateKeys p func (initial_world c r)).
Proof.
  rewrite AsyncGenerateKeys_spec. split_and!; simpl; try done.
  - exists (hops p). by destruct p.
  - eexists. split; [done|]. unfold initial_frames.
    by rewrite length_map, length_seq.
Qed.

(** The first [k] jobs of the build of a path that is too long. *)
Lemma long_prefix k :
  k ≤ MAXHOPS →
  (∃ w, build codec c r p func k = Pending w
      ∧ long_inv p func k w
      ∧ ∀ j, j < k → hop_ok codec c r p func j)
  ∨ (∃ j f w', j < k
      ∧ build codec c r p func k = Crashed w'
      ∧ (∀ i, i < j → hop_ok codec c r p func i)
      ∧ hop_crash codec c r p func j f w').
Proof.
  induction k as [|k IH]; intros Hk.
  - left. eexists. split; [|split; [apply long_inv_init|lia]].
    unfold build. by rewrite AsyncGenerateKeys_spec.
  - destruct IH as [(w & Hb & Hinv & Hok)
                    |(j & f & w' & Hj & Hb & Hok & Hcr)]; [lia| |].
    + pose proof Hinv as (Hp & Hm & Hidx & Hres & Hwq & Hlq).
      set (wk := mkWorld (ctx w) [] [] (entropy w) (trace w)).
      assert (next_job w = Some (JobGenerateNextKey, wk)) as Hnext
        by (unfold next_job; by rewrite Hwq, Hlq).
      assert (hop_turn codec c r p func k wk) as Hturn.
      { exists w. unfold after_jobs, next_hop_job.
        by rewrite Hb, Hnext. }
      rewrite (build_S codec c r p func k w Hb), run_unfold, Hnext.
      cbn [run_job].
      destruct (GenerateNextKey codec wk) as [w2|w2|] eqn:Egen.
      * destruct (long_step codec p func Hlong k wk w2) as [_ Hinv2];
          [by split_and!|done..|].
        left. exists w2. split; [|split; [done|]].
        { rewrite run_unfold. unfold next_job.
          by destruct Hinv2 as (_ & _ & _ & _ & -> & _). }
        intros j Hj. destruct (decide (j = k)) as [->|]; [|apply Hok; lia].
        exists wk. eauto using returned_no_failing_step.
      * destruct (aborted_failing_step codec wk w2 0 Egen) as (f & Hf & _).
        right. exists k, f, w2. split; [lia|]. split; [done|].
        split; [done|]. by exists wk.
      * exfalso. apply GenerateNextKey_undefined in Egen.
        destruct Hp as (hs & Hp & Hlen). destruct Hm as (fs & Hm & Hflen).
        unfold hops_of, frames_of in Egen. subst wk. simpl in Egen.
        rewrite Hp, Hm, Hidx in Egen. simpl in Egen.
        destruct Egen as [?|[?|[E|E]]]; try done;
          apply lookup_ge_None in E; lia.
    + right. exists j, f, w'. split; [lia|]. split; [|done].
      by rewrite <- Nat.add_1_r, build_add, Hb.
Qed.
End LongBuild.

(** X7.  A path with more hops than the commit message has frames is
    never built: whatever time the build is given it does not run to
    completion.  Given time for more than MAXHOPS jobs it ends in one of
    two ways: it is aborted in the job of a hop k <= MAXHOPS in which a
    step failed, the jobs of the hops before k having run without
    failure; or the jobs of the hops 0, ..., MAXHOPS-1 ran without
    failure and the job of hop MAXHOPS, whose key exchange succeeds,
    takes [frames[MAXHOPS]] of a message of MAXHOPS frames.  When no
    step of the build fails it is the latter. *)
Theorem long_path_never_built codec c r p func fuel :
  MAXHOPS < length (hops p) →
  (∀ w', build codec c r p func fuel ≠ Idle w')
  ∧ (MAXHOPS < fuel →
     long_build_end codec c r p func (build codec c r p func fuel)
     ∧ (no_step_fails codec c r p func (S MAXHOPS) →
        build codec c r p func fuel = Faulted)).
Proof.
  intros Hlong. split.
  { pose proof (run_long codec p func Hlong fuel 0 _
                  (long_inv_init c r p func Hlong) ltac:(lia)) as Hrun.
    unfold build. intros w' E. by rewrite E in Hrun. }
  intros Hfuel.
  assert (long_build_end codec c r p func (build codec c r p func fuel))
    as Hend.
  { assert (fuel = MAXHOPS + S (fuel - S MAXHOPS)) as -> by lia.
    rewrite build_add.
    destruct (long_prefix codec c r p func Hlong MAXHOPS ltac:(lia))
      as [(w & Hb & Hinv & Hok)|(j & f & w' & Hj & Hb & Hok & Hcr)];
      rewrite Hb; [|exists j, f; split; [lia|done]].
    pose proof Hinv as (Hp & Hm & Hidx & Hres & Hwq & Hlq).
    set (wk := mkWorld (ctx w) [] [] (entropy w) (trace w)).
    assert (next_job w = Some (JobGenerateNextKey, wk)) as Hnext
      by (unfold next_job; by rewrite Hwq, Hlq).
    assert (hop_turn codec c r p func MAXHOPS wk) as Hturn.
    { exists w. unfold after_jobs, next_hop_job. by rewrite Hb, Hnext. }
    rewrite run_unfold, Hnext. cbn [run_job].
    destruct (GenerateNextKey codec wk) as [w2|w2|] eqn:Egen.
    - destruct (long_step codec p func Hlong MAXHOPS wk w2) as [? _];
        [by split_and!|done..|lia].
    - destruct (aborted_failing_step codec wk w2 0 Egen) as (f & Hf & _).
      exists MAXHOPS, f. split; [lia|]. split; [done|]. by exists wk.
    - split; [done|]. exists wk. split; [done|].
      destruct Hp as (hs & Hp & Hlen). destruct Hm as (fs & Hm & Hflen).
      unfold hops_of, frames_of. subst wk. simpl. rewrite Hp, Hm. simpl.
      split; [apply lookup_lt_is_Some_2; lia|]. split; [done|].
      split; [by apply undefined_no_failing_step|done]. }
  split; [done|]. intros Hnf.
  destruct (build codec c r p func fuel) as [w'|w'| |w']; try done.
  destruct Hend as (k & f & Hk & _ & (wk & Hturn & Hf & _)).
  apply hop_turn_job in Hturn. rewrite (Hnf k wk ltac:(lia) Hturn) in Hf.
  done.
Qed.

Lemma demo_long_no_step_fails :
  no_step_fails demo_codec demo_crypto demo_rng demo_long_path 7 (S MAXHOPS).
Proof.
  intros k wk Hk Hjob.
  do 9 (destruct k as [|k];
    [vm_compute in Hjob; injection Hjob as <-; vm_compute; reflexivity|]).
  vm_compute in Hk. lia.
Qed.

Lemma long_path_never_built_witness :
  MAXHOPS < length (hops demo_long_path) ∧ MAXHOPS < 9
  ∧ no_step_fails demo_codec demo_crypto demo_rng demo_long_path 7
      (S MAXHOPS)
  ∧ build demo_codec demo_crypto demo_rng demo_long_path 7 9 = Faulted
  ∧ long_build_end demo_codec demo_crypto demo_rng demo_long_path 7
      (build demo_codec demo_crypto demo_rng demo_long_path 7 9).
Proof.
  assert (MAXHOPS < length (hops demo_long_path)) as Hl
    by (vm_compute; lia).
  assert (MAXHOPS < 9) as Hf by (vm_compute; lia).
  split; [exact Hl|]. split; [exact Hf|].
  split; [exact demo_long_no_step_fails|].
  destruct (proj2 (long_path_never_built demo_codec demo_crypto demo_rng
                     demo_long_path 7 9 Hl) Hf) as [Hend Hfault].
  split; [exact (Hfault demo_long_no_step_fails)|exact Hend].
Defined.

(** X8.  A context serves one build.  [AsyncGenerateKeys] does not set
    [idx] back: after a build that ran to completion, a second call on the
    same context, for a path with no more hops than the first, leaves
    [idx] at the number of hops of the first path, and the job it queues
    reads the hops of the new path out of range. *)
Theorem context_is_single_use codec c r p func fuel w' p2 func2 fuel2 :
  (1 ≤ length (hops p) ≤ MAXHOPS) →
  build codec c r p func fuel = Idle w' →
  length (hops p2) ≤ length (hops p) →
  idx (ctx (AsyncGenerateKeys p2 func2 w')) = length (hops p)
  ∧ worker_queue (AsyncGenerateKeys p2 func2 w') = [JobGenerateNextKey]
  ∧ run codec (S fuel2) (AsyncGenerateKeys p2 func2 w') = Faulted.
Proof.
  intros HN Hrun Hlen.
  pose proof (build_classify codec c r p func fuel HN) as Hb.
  rewrite Hrun in Hb. destruct Hb as (_ & _ & Hidx & Hwq & Hlq & _).
  assert (AsyncGenerateKeys p2 func2 w' =
          mkWorld (mkCtx (Some p2) (Some func2) (length (hops p))
                         (crypto (ctx w'))
                         (Some (mkLRCM (initial_frames (entropy w')))))
                  [JobGenerateNextKey] []
                  (mkRng (stream (entropy w'))
                         (pos (entropy w') + FRAME_SIZE * MAXHOPS))
                  (trace w' ++ [EvQueueWorker (length (hops p))])) as ->.
  { unfold AsyncGenerateKeys.
    by rewrite emplace_random_frames_spec, Hidx, Hwq, Hlq. }
  split; [done|]. split; [done|].
  rewrite run_unfold. simpl. unfold GenerateNextKey. simpl.
  by rewrite (proj2 (lookup_ge_None (hops p2) (length (hops p)))) by lia.
Qed.

Lemma context_is_single_use_witness :
  (1 ≤ length (hops demo_path3) ≤ MAXHOPS)
  ∧ length (hops demo_path1) ≤ length (hops demo_path3)
  ∧ ∃ w', build demo_codec demo_crypto demo_rng demo_path3 7 4 = Idle w'
    ∧ idx (ctx (AsyncGenerateKeys demo_path1 7 w')) = 3
    ∧ worker_queue (AsyncGenerateKeys demo_path1 7 w')
      = [JobGenerateNextKey]
    ∧ run demo_codec 1 (AsyncGenerateKeys demo_path1 7 w') = Faulted.
Proof.
  assert (1 ≤ length (hops demo_path3) ≤ MAXHOPS) as HN
    by (vm_compute; lia).
  assert (length (hops demo_path1) ≤ length (hops demo_path3)) as Hl
    by (vm_compute; lia).
  split; [exact HN|]. split; [exact Hl|].
  eexists. split; [vm_compute; reflexivity|].
  apply (context_is_single_use demo_codec demo_crypto demo_rng demo_path3
           7 4 _ demo_path1 7 0 HN); [vm_compute; reflexivity|exact Hl].
Defined.

(** X11.  A job works on the hop and on the frame that [idx] names and
    on no other: whether it returns or aborts, every other hop of the
    path and every other frame of the commit message is as it was, and
    the path and the message keep their lengths. *)
Theorem job_touches_one_hop codec w :
  match GenerateNextKey codec w with
  | Returned w' | Aborted w' =>
      length (hops_of w') = length (hops_of w)
      ∧ length (frames_of w') = length (frames_of w)
      ∧ ∀ j, j ≠ idx (ctx w) →
          hops_of w' !! j = hops_of w !! j
          ∧ frames_of w' !! j = frames_of w !! j
  | Undefined => True
  end.
Proof.
  unfold GenerateNextKey, hops_of, frames_of.
  destruct (path (ctx w)) as [p|]; [|done].
  destruct (LRCM (ctx w)) as [m|]; [|done].
  destruct (hops p !! idx (ctx w)) as [hop|]; [|done].
  destruct (encryption_keygen _ _) as [key r1]. simpl.
  destruct (dh_client _ _ _ _ _) as [ok1 s]. simpl.
  destruct ok1; simpl.
  2:{ rewrite length_insert. split_and!; try done.
      intros j Hj. by rewrite list_lookup_insert_ne. }
  destruct (frames m !! idx (ctx w)) as [frame|]; [|done].
  destruct (BEncode_record _ _ _) as [ok2 frame2]. simpl.
  destruct ok2; simpl.
  2:{ rewrite !length_insert. split_and!; try done.
      intros j Hj. by rewrite !list_lookup_insert_ne. }
  destruct (EncryptInPlace _ _ _ _ _ _) as [[ok3 frame3] r4]. simpl.
  destruct ok3; simpl.
  2:{ rewrite !length_insert. split_and!; try done.
      intros j Hj. by rewrite !list_lookup_insert_ne. }
  case_bool_decide; simpl; rewrite !length_insert; split_and!; try done;
    intros j Hj; by rewrite !list_lookup_insert_ne.
Qed.
End PathBuildMore.

(** ** The embedding C ABI *)
Module LokinetSharedMore.
Import LokinetShared LokinetSharedAux LokinetSharedProps.

Lemma prefix_colon b s :
  String.prefix ":" (String b s) = Ascii.eqb b ":".
Proof.
  destruct (Ascii.eqb_spec b ":") as [->|Hne].
  - apply (proj2 (String.prefix_correct _ _)). by destruct s.
  - destruct (String.prefix ":" (String b s)) eqn:E; [|done].
    apply String.prefix_correct in E. destruct s; simpl in E; congruence.
Qed.

Lemma index_colon_None s :
  String.index 0 ":" s = None ↔ has_colon s = false.
Proof.
  induction s as [|b s IH]; [done|].
  cbn [String.index has_colon]. rewrite prefix_colon.
  destruct (Ascii.eqb b ":"); [done|].
  destruct (String.index 0 ":" s); [|tauto].
  split; [done|]. intros H. apply IH in H. done.
Qed.

Lemma host_port_nil rest : host_port "" rest = String ":" rest.
Proof. done. Qed.

Lemma host_port_cons b h rest :
  host_port (String b h) rest = String b (host_port h rest).
Proof. done. Qed.

Lemma index_colon_Some host rest :
  has_colon host = false →
  String.index 0 ":" (host_port host rest) = Some (String.length host).
Proof.
  induction host as [|b h IH]; intros Hnc.
  - rewrite host_port_nil. cbn [String.index]. by rewrite prefix_colon.
  - cbn [has_colon] in Hnc. destruct (Ascii.eqb b ":") eqn:Eb; [done|].
    rewrite host_port_cons. cbn [String.index String.length].
    by rewrite prefix_colon, Eb, IH.
Qed.

Lemma index_colon_split data pos :
  String.index 0 ":" data = Some pos →
  ∃ host rest, data = host_port host rest ∧ has_colon host = false
               ∧ String.length host = pos.
Proof.
  revert pos. induction data as [|b s IH]; intros pos; [done|].
  cbn [String.index]. rewrite prefix_colon.
  destruct (Ascii.eqb_spec b ":") as [->|Hne].
  - intros [= <-]. by exists EmptyString, s.
  - destruct (String.index 0 ":" s) as [n|]; [|done].
    intros [= <-]. destruct (IH n eq_refl) as (h & rest & -> & Hnc & <-).
    exists (String b h), rest. split; [done|]. split; [|done].
    cbn [has_colon]. by rewrite (proj2 (Ascii.eqb_neq b ":")).
Qed.

Lemma substring_all s : String.substring 0 (String.length s) s = s.
Proof. induction s; simpl; [done|]. by f_equal. Qed.

Lemma substring_host host rest :
  String.substring 0 (String.length host) (host_port host rest) = host.
Proof.
  induction host as [|b h IH]; [by destruct rest|].
  rewrite host_port_cons. simpl. by f_equal.
Qed.

Lemma length_host_port host rest :
  String.length (host_port host rest)
  = (String.length host + 1 + String.length rest)%nat.
Proof.
  induction host as [|b h IH]; [done|].
  rewrite host_port_cons. simpl. by rewrite IH.
Qed.

Lemma substring_port host rest :
  String.substring (String.length host + 1)
    (String.length (host_port host rest) - (String.length host + 1))
    (host_port host rest) = rest.
Proof.
  rewrite length_host_port.
  replace (String.length host + 1 + String.length rest
           - (String.length host + 1))%nat
    with (String.length rest) by lia.
  induction host as [|b h IH].
  - rewrite host_port_nil. simpl. apply substring_all.
  - rewrite host_port_cons. simpl. apply IH.
Qed.

Lemma split_host_port_at_colon env host rest proto :
  has_colon host = false →
  split_host_port env (host_port host rest) proto =
    match getservbyname env rest proto with
    | Some s_port => SplitOk host s_port
    | None =>
        match stoi env rest with
        | Some port => SplitOk host port
        | None => SplitThrows
        end
    end.
Proof.
  intros Hnc. unfold split_host_port.
  by rewrite index_colon_Some, substring_host, substring_port.
Qed.

(** X12.  [split_host_port] throws the integer [EINVAL] exactly when its
    argument holds no colon, and it throws no other integer. *)
Theorem split_host_port_no_colon env data proto :
  (has_colon data = false →
   split_host_port env data proto = SplitThrowsInt EINVAL)
  ∧ (∀ err, split_host_port env data proto = SplitThrowsInt err →
       err = EINVAL ∧ has_colon data = false).
Proof.
  unfold split_host_port. split.
  - intros Hnc. by rewrite (proj2 (index_colon_None data) Hnc).
  - intros err. destruct (String.index 0 ":" data) eqn:E.
    + repeat case_match; done.
    + intros [= <-]. split; [done|]. by apply index_colon_None.
Qed.

Lemma split_host_port_no_colon_witness :
  has_colon "localhost" = false
  ∧ split_host_port (demo_env None) "localhost" "tcp"
    = SplitThrowsInt EINVAL.
Proof.
  split; [reflexivity|].
  exact (proj1 (split_host_port_no_colon (demo_env None) "localhost" "tcp")
           eq_refl).
Defined.

(** X13.  [split_host_port] cuts its argument at the first colon: the
    host is what stands before it, the port is read off all that stands
    after it, as a service name if [getservbyname] knows it and as a
    number otherwise; when it is neither the exception of [std::stoi]
    leaves the function.  A result comes from such a cut only. *)
Theorem split_host_port_first_colon env proto :
  (∀ host rest, has_colon host = false →
     split_host_port env (host_port host rest) proto =
       match getservbyname env rest proto with
       | Some s_port => SplitOk host s_port
       | None =>
           match stoi env rest with
           | Some port => SplitOk host port
           | None => SplitThrows
           end
       end)
  ∧ (∀ data host port,
       split_host_port env data proto = SplitOk host port →
       has_colon host = false
       ∧ ∃ rest, data = host_port host rest
               ∧ (getservbyname env rest proto = Some port
                  ∨ getservbyname env rest proto = None
                    ∧ stoi env rest = Some port)).
Proof.
  split; [intros; by apply split_host_port_at_colon|].
  intros data host port Hs.
  destruct (String.index 0 ":" data) as [pos|] eqn:E;
    [|by unfold split_host_port in Hs; rewrite E in Hs].
  destruct (index_colon_split data pos E) as (h & rest & -> & Hnc & _).
  rewrite split_host_port_at_colon in Hs by done.
  destruct (getservbyname env rest proto) as [sp|] eqn:Eg.
  - injection Hs as <- <-. split; [done|]. exists rest. by split; [|left].
  - destruct (stoi env rest) as [n|] eqn:En; [|done].
    injection Hs as <- <-. split; [done|]. exists rest.
    by split; [|right].
Qed.

Lemma split_host_port_first_colon_witness :
  has_colon "example.loki" = false
  ∧ split_host_port (demo_env None) "example.loki:80:443" "tcp"
    = SplitOk "example.loki" 443.
Proof.
  split; [reflexivity|].
  exact (proj1 (split_host_port_first_colon (demo_env None) "tcp")
           "example.loki" "80:443" eq_refl).
Defined.

(** X14.  The handler that [lokinet_inbound_stream] installs for a port
    (a [uint16_t]) takes the streams that come in on that port and throws
    for every other port, it never declines without an exception; the
    handler installed for a null filter takes every stream. *)
Theorem inbound_stream_handler_accepts_own_port port q user :
  0 ≤ port < 65536 →
  inbound_stream_handler port q
    = (if decide (q = port) then AcceptLocal q else RejectThrows)
  ∧ listen_handler None user q = AcceptLocal q.
Proof.
  intros Hp. split; [|done].
  unfold inbound_stream_handler, listen_handler, accept_port. simpl.
  rewrite Z.mod_small by done.
  destruct (Z.eqb_spec q port), (decide (q = port)); done.
Qed.

Lemma inbound_stream_handler_accepts_own_port_witness :
  0 ≤ 8080 < 65536
  ∧ inbound_stream_handler 8080 8080 = AcceptLocal 8080
  ∧ inbound_stream_handler 8080 22 = RejectThrows.
Proof.
  assert (0 ≤ 8080 < 65536) as H by lia.
  split; [exact H|].
  split.
  - exact (proj1 (inbound_stream_handler_accepts_own_port 8080 8080 0 H)).
  - exact (proj1 (inbound_stream_handler_accepts_own_port 8080 22 0 H)).
Defined.

(** X15.  [stream_okay] writes inside the array: the array keeps its size,
    at most [sizeof(local_address) - 1] characters of the host are copied
    to its start (a longer host is cut), every cell after them, and so
    the last cell, is left as it was; the error is 0 and the port and
    the stream id are the ones given. *)
Theorem stream_okay_in_bounds sz result host port id :
  (1 ≤ sz)%nat → length (local_address result) = sz →
  let r' := stream_okay sz result host port id in
  let n := Nat.min (String.length host) (sz - 1) in
  error r' = 0 ∧ local_port r' = port ∧ stream_id r' = id
  ∧ length (local_address r') = sz
  ∧ take n (local_address r') = take n (list_ascii_of_string host)
  ∧ drop n (local_address r') = drop n (local_address result)
  ∧ local_address r' !! (sz - 1)%nat = local_address result !! (sz - 1)%nat.
Proof.
  intros Hsz Hlen r' n. subst r'. unfold stream_okay, copy_n. simpl.
  fold n.
  assert (length (list_ascii_of_string host) = String.length host) as Hl.
  { induction host; simpl; [done|]. by f_equal. }
  assert (length (take n (list_ascii_of_string host)) = n) as Hn
    by (rewrite length_take; lia).
  split_and!; try done.
  - rewrite length_app, length_drop, Hn. lia.
  - by rewrite take_app_length' by done.
  - by rewrite drop_app_length' by done.
  - rewrite lookup_app_r by lia. rewrite lookup_drop, Hn.
    f_equal. lia.
Qed.

Lemma stream_okay_in_bounds_witness :
  let result := mkResult 7 (replicate 4 zero) 0 0 in
  let r' := stream_okay 4 result "abcdef" 443 1 in
  (1 ≤ 4)%nat ∧ length (local_address result) = 4%nat
  ∧ error r' = 0 ∧ local_port r' = 443 ∧ stream_id r' = 1
  ∧ length (local_address r') = 4%nat
  ∧ take 3 (local_address r') = ["a"; "b"; "c"]%char
  ∧ local_address r' !! 3%nat = Some zero.
Proof.
  intros result r'.
  assert (1 ≤ 4)%nat as H1 by lia.
  destruct (stream_okay_in_bounds 4 result "abcdef" 443 1 H1 eq_refl)
    as (He & Hp & Hi & Hl & Ht & _ & Hlast).
  split; [exact H1|]. split; [reflexivity|].
  split; [exact He|]. split; [exact Hp|]. split; [exact Hi|].
  split; [exact Hl|]. split; [exact Ht|exact Hlast].
Defined.

Lemma run_outbound_call_result env a h p e l result w result' w' :
  run_outbound_call env a h p e l result w = Ret result' w' →
  (∃ err, result' = stream_error result err ∧ w' = w)
  ∨ (∃ c host port id,
       heap w !! a = Some c
       ∧ result' = stream_okay (sizeof_local_address env) result host port id
       ∧ w' = store a (outbound_stream id c) w).
Proof.
  unfold run_outbound_call. intros H.
  repeat case_match; simplify_eq; eauto 10.
Qed.

(** X16.  Whenever [lokinet_outbound_stream] returns, either it has
    written the error field of the result and nothing else, and no
    context has changed; or the stream is open: the result is the one
    [stream_okay] fills in, with error 0, and the context has the stream
    id on record as an outbound stream.  In both cases but the timeout no
    call is left with the logic thread. *)
Theorem outbound_stream_result env result remote local ctx w out w' :
  lokinet_outbound_stream env result remote local ctx w = Ret out w' →
  (∃ err, out_result out = stream_error result err ∧ heap w' = heap w
          ∧ (err ≠ ETIMEDOUT → logic_queue w' = logic_queue w))
  ∨ (∃ a c host port id,
       ctx = Some a ∧ heap w !! a = Some c
       ∧ out_result out
         = stream_okay (sizeof_local_address env) result host port id
       ∧ error (out_result out) = 0
       ∧ heap w' = <[a := outbound_stream id c]> (heap w)
       ∧ streams_of w' a !! id = Some false
       ∧ logic_queue w' = logic_queue w).
Proof.
  unfold lokinet_outbound_stream. intros H.
  destruct ctx as [a|]; [|simplify_eq; left; eauto].
  simpl in H. destruct (heap w !! a) as [c|] eqn:Ea; [|done].
  destruct (negb (up (impl c))); [simplify_eq; left; eauto|].
  destruct (split_host_port env remote "tcp") as [h p|err|];
    [|simplify_eq; left; eauto|done].
  destruct (SockAddr_parse env _) as [l|]; [|simplify_eq; left; eauto].
  assert (∀ w1, Ret (A:=outbound_return)
                  (mkOutbound (stream_error result ETIMEDOUT) wait_limit_ms)
                  w1 = Ret out w' →
          w1 = CallSafe (OutboundCall a h p "default" l) w →
          ∃ err, out_result out = stream_error result err
                 ∧ heap w' = heap w
                 ∧ (err ≠ ETIMEDOUT → logic_queue w' = logic_queue w))
    as Hlate.
  { intros w1 [= <- <-] ->. exists ETIMEDOUT. by split_and!. }
  destruct (logic_delay env) as [d|]; [|left; eauto].
  destruct (d <=? wait_limit_ms); [|left; eauto].
  rewrite call_done_CallSafe in H.
  destruct (run_outbound_call env a h p "default" l result w)
    as [result' w2| | |] eqn:Ecall; [|done..].
  injection H as <- <-. simpl.
  apply run_outbound_call_result in Ecall
    as [(err & -> & ->)|(c' & host & port & id & Hc' & -> & ->)].
  - left. eauto.
  - right. assert (c' = c) as -> by congruence.
    exists a, c, host, port, id. split_and!; try done.
    unfold streams_of, store, outbound_stream. simpl.
    rewrite lookup_insert_eq. simpl. by rewrite lookup_insert_eq.
Qed.

Lemma outbound_stream_result_witness :
  ∃ out w',
    lokinet_outbound_stream (demo_env (Some 50)) demo_result
      "example.loki:443" None (Some 1%positive) demo_world = Ret out w'
    ∧ error (out_result out) = 0
    ∧ streams_of w' 1%positive !! 1 = Some false.
Proof.
  eexists _, _. split; [vm_compute; reflexivity|].
  destruct (outbound_stream_result (demo_env (Some 50)) demo_result
              "example.loki:443" None (Some 1%positive) demo_world _ _
              eq_refl)
    as [(err & He & _)|(a & c & host & port & id & _ & _ & _ & _ & _ & Hs
                        & _)].
  - split; by vm_compute.
  - split; by vm_compute.
Defined.

(** X17.  A remote address whose port is neither a service name nor a
    number makes an exception leave [lokinet_outbound_stream]: the
    function catches the integer that [split_host_port] throws, not the
    exception of [std::stoi]. *)
Theorem outbound_stream_bad_port env result host rest local a c w :
  heap w !! a = Some c → up (impl c) = true →
  has_colon host = false →
  getservbyname env rest "tcp" = None → stoi env rest = None →
  lokinet_outbound_stream env result (host_port host rest) local (Some a) w
  = Terminate.
Proof.
  intros Ha Hup Hnc Hg Hs. unfold lokinet_outbound_stream. simpl.
  rewrite Ha, Hup. simpl.
  by rewrite split_host_port_at_colon, Hg, Hs by done.
Qed.

Lemma outbound_stream_bad_port_witness :
  let env := mkEnv (λ _ _, None) (λ _, None) (λ s, Some s)
               (λ _ _ _, OpenThrows) 2 ComesUp ∅ 256 (Some 50) in
  heap demo_world !! 1%positive = Some demo_context
  ∧ up (impl demo_context) = true
  ∧ has_colon "example.loki" = false
  ∧ lokinet_outbound_stream env demo_result
      (host_port "example.loki" "https?") None (Some 1%positive) demo_world
    = Terminate.
Proof.
  intros env. split; [reflexivity|]. split; [reflexivity|].
  split; [reflexivity|].
  exact (outbound_stream_bad_port env demo_result "example.loki" "https?"
           None 1%positive demo_context demo_world eq_refl eq_refl eq_refl
           eq_refl eq_refl).
Defined.

(** X18.  On a context that is not up the stream functions refuse at
    once: [lokinet_outbound_stream] sets [EHOSTDOWN],
    [lokinet_inbound_stream_filter] and [lokinet_inbound_stream] return
    -1, [lokinet_close_stream] returns; nothing is handed to the logic
    thread and no context changes, whatever the logic thread does. *)
Theorem not_up_refuses env result remote local filter user port id a c w :
  heap w !! a = Some c → up (impl c) = false →
  lokinet_outbound_stream env result remote local (Some a) w
    = Ret (mkOutbound (stream_error result EHOSTDOWN) 0) w
  ∧ lokinet_inbound_stream_filter env filter user (Some a) w = Ret (-1) w
  ∧ lokinet_inbound_stream env port (Some a) w = Ret (-1) w
  ∧ lokinet_close_stream env id (Some a) w = Ret tt w.
Proof.
  intros Ha Hup.
  unfold lokinet_inbound_stream, lokinet_outbound_stream,
    lokinet_inbound_stream_filter, lokinet_close_stream.
  simpl. by rewrite Ha, Hup.
Qed.

Lemma not_up_refuses_witness :
  let w := mkWorld {[1%positive := lokinet_context_ctor]} None [] in
  heap w !! 1%positive = Some lokinet_context_ctor
  ∧ up (impl lokinet_context_ctor) = false
  ∧ lokinet_outbound_stream (demo_env None) demo_result "example.loki:443"
      None (Some 1%positive) w
    = Ret (mkOutbound (stream_error demo_result EHOSTDOWN) 0) w
  ∧ lokinet_inbound_stream (demo_env None) 8080 (Some 1%positive) w
    = Ret (-1) w.
Proof.
  intros w.
  destruct (not_up_refuses (demo_env None) demo_result "example.loki:443"
              None None 0 8080 0 1%positive lokinet_context_ctor w
              eq_refl eq_refl) as (H1 & _ & H3 & _).
  split; [reflexivity|]. split; [reflexivity|]. split; [exact H1|exact H3].
Defined.

(** X19.  [lokinet_close_stream] with a stream id that the context does
    not know returns at once, without a call to the logic thread, even
    when that thread runs nothing; and whenever the function returns, the
    contexts are as they were: the id of a closed stream stays on record. *)
Theorem close_stream_unknown_id env id a c w :
  heap w !! a = Some c →
  (streams c !! id = None → lokinet_close_stream env id (Some a) w = Ret tt w)
  ∧ (∀ u w', lokinet_close_stream env id (Some a) w = Ret u w' → w' = w).
Proof.
  intros Ha. unfold lokinet_close_stream. simpl. rewrite Ha. split.
  - intros ->. by destruct (negb (up (impl c))).
  - intros u w' H. destruct (negb (up (impl c))); [by simplify_eq|].
    destruct (streams c !! id) as [inbound|]; [|by simplify_eq].
    destruct (logic_delay env); [|done].
    rewrite call_done_CallSafe in H. unfold run_close_call in H.
    repeat case_match; by simplify_eq.
Qed.

Lemma close_stream_unknown_id_witness :
  heap demo_world !! 1%positive = Some demo_context
  ∧ streams demo_context !! 5 = None
  ∧ lokinet_close_stream (demo_env None) 5 (Some 1%positive) demo_world
    = Ret tt demo_world.
Proof.
  split; [reflexivity|]. split; [reflexivity|].
  exact (proj1 (close_stream_unknown_id (demo_env None) 5 1%positive
                  demo_context demo_world eq_refl) eq_refl).
Defined.

(** X20.  [lokinet_default] makes the default context once: the first
    call allocates a context that is not up, every later call returns the
    same pointer and changes nothing, and the contexts that were live are
    left as they were; so a stream asked of the default context before it
    is started gets [EHOSTDOWN]. *)
Theorem lokinet_default_once env result remote local w :
  ∃ a w1,
    lokinet_default w = Ret (Some a) w1
    ∧ lokinet_default w1 = Ret (Some a) w1
    ∧ g_context w1 = Some a
    ∧ (∀ b c, heap w !! b = Some c → heap w1 !! b = Some c)
    ∧ (g_context w = None →
       heap w !! a = None
       ∧ heap w1 !! a = Some lokinet_context_ctor
       ∧ lokinet_outbound_stream env result remote local (Some a) w1
         = Ret (mkOutbound (stream_error result EHOSTDOWN) 0) w1).
Proof.
  unfold lokinet_default. destruct (g_context w) as [a|] eqn:Eg.
  - exists a, w. rewrite Eg. by split_and!.
  - set (a := fresh (dom (heap w))).
    assert (heap w !! a = None) as Hfresh
      by (apply not_elem_of_dom; apply is_fresh).
    eexists a, _. split; [done|]. simpl. split; [done|]. split; [done|].
    split.
    + intros b c Hb. rewrite lookup_insert_ne; [done|]. congruence.
    + intros _. split; [done|]. split; [by rewrite lookup_insert_eq|].
      unfold lokinet_outbound_stream. simpl. by rewrite lookup_insert_eq.
Qed.

(** X21.  [lokinet_context_new] returns a pointer that was not live, to a
    context that is not up and has no stream on record; the contexts that
    were live and [g_context] are left as they were. *)
Theorem lokinet_context_new_fresh w :
  ∃ a w1,
    lokinet_context_new w = Ret (Some a) w1
    ∧ heap w !! a = None
    ∧ heap w1 !! a = Some lokinet_context_ctor
    ∧ streams lokinet_context_ctor = ∅
    ∧ up (impl lokinet_context_ctor) = false
    ∧ (∀ b c, heap w !! b = Some c → heap w1 !! b = Some c)
    ∧ g_context w1 = g_context w
    ∧ logic_queue w1 = logic_queue w.
Proof.
  unfold lokinet_context_new. set (a := fresh (dom (heap w))).
  assert (heap w !! a = None) as Hfresh
    by (apply not_elem_of_dom; apply is_fresh).
  eexists a, _. split; [done|]. simpl. split_and!; try done.
  - by rewrite lookup_insert_eq.
  - intros b c Hb. rewrite lookup_insert_ne; [done|]. congruence.
Qed.

(** X22.  [lokinet_context_free] ends the life of the context and of
    nothing else: the pointer is dangling afterwards, so that a later
    call with it is a fault, and the other contexts are as they were.  It
    does not clear [g_context]: when the freed context is the default one,
    [lokinet_default] goes on returning the dangling pointer. *)
Theorem lokinet_context_free_dangles a c w :
  heap w !! a = Some c →
  ∃ w', lokinet_context_free (Some a) w = Ret tt w'
      ∧ heap w' !! a = None
      ∧ (∀ b, b ≠ a → heap w' !! b = heap w !! b)
      ∧ g_context w' = g_context w
      ∧ lokinet_address (Some a) w' = Fault
      ∧ lokinet_context_stop (Some a) w' = Fault
      ∧ (g_context w = Some a → lokinet_default w' = Ret (Some a) w').
Proof.
  intros Ha. unfold lokinet_context_free, lokinet_context_stop. simpl.
  rewrite Ha. eexists. split; [done|]. simpl.
  split; [apply lookup_delete_eq|]. split.
  { intros b Hb. by rewrite lookup_delete_ne, lookup_insert_ne. }
  split; [done|].
  unfold lokinet_address, lokinet_default. simpl.
  rewrite lookup_delete_eq. split; [done|]. split; [done|].
  by intros ->.
Qed.

Lemma lokinet_context_free_dangles_witness :
  let w := mkWorld {[1%positive := demo_context]} (Some 1%positive) [] in
  heap w !! 1%positive = Some demo_context
  ∧ ∃ w', lokinet_context_free (Some 1%positive) w = Ret tt w'
      ∧ heap w' !! 1%positive = None
      ∧ lokinet_address (Some 1%positive) w' = Fault
      ∧ lokinet_default w' = Ret (Some 1%positive) w'.
Proof.
  intros w. split; [reflexivity|].
  destruct (lokinet_context_free_dangles 1%positive demo_context w eq_refl)
    as (w' & Hf & Hh & _ & _ & Ha & _ & Hd).
  exists w'. split; [exact Hf|]. split; [exact Hh|]. split; [exact Ha|].
  exact (Hd eq_refl).
Defined.

(** X23.  On a context that is serving, with a logic thread that runs the
    call, [lokinet_inbound_stream_filter] returns the id that the tunnel
    gave and leaves it on record as an inbound stream; a
    [lokinet_close_stream] of that id then finds it and returns. *)
Theorem inbound_stream_recorded env filter user a c d w :
  heap w !! a = Some c → serving c → logic_delay env = Some d →
  ∃ w', lokinet_inbound_stream_filter env filter user (Some a) w
        = Ret (quic_listen env) w'
      ∧ heap w' = <[a := inbound_stream (quic_listen env) c]> (heap w)
      ∧ streams_of w' a !! quic_listen env = Some true
      ∧ logic_queue w' = logic_queue w
      ∧ lokinet_close_stream env (quic_listen env) (Some a) w' = Ret tt w'.
Proof.
  intros Ha (Hup & r & ep & Hr & Hep & Hq) Hd.
  set (c' := inbound_stream (quic_listen env) c).
  exists (store a c' w).
  assert (lokinet_inbound_stream_filter env filter user (Some a) w
          = Ret (quic_listen env) (store a c' w)) as Hin.
  { unfold lokinet_inbound_stream_filter. simpl.
    rewrite Ha, Hup, Hd. simpl. rewrite call_done_CallSafe.
    unfold run_listen_call. by rewrite Ha, Hr, Hep, Hq, Ha. }
  split; [exact Hin|]. split; [done|].
  assert (heap (store a c' w) !! a = Some c') as Ha'
    by apply lookup_insert_eq.
  split; [unfold streams_of; rewrite Ha'; apply lookup_insert_eq|].
  split; [done|].
  unfold lokinet_close_stream, deref. cbn [mbind option_bind].
  rewrite Ha'.
  assert (streams c' !! quic_listen env = Some true) as ->
    by apply lookup_insert_eq.
  change (impl c') with (impl c). rewrite Hup, Hd. cbn [negb].
  rewrite call_done_CallSafe. unfold run_close_call.
  rewrite Ha'. change (impl c') with (impl c). by rewrite Hr, Hep, Hq.
Qed.

Lemma inbound_stream_recorded_witness :
  heap demo_world !! 1%positive = Some demo_context
  ∧ serving demo_context
  ∧ ∃ w', lokinet_inbound_stream_filter (demo_env (Some 5)) None 0
            (Some 1%positive) demo_world = Ret 2 w'
        ∧ streams_of w' 1%positive !! 2 = Some true.
Proof.
  assert (serving demo_context) as Hs.
  { split; [reflexivity|]. by exists {["default"%string := demo_endpoint]},
      demo_endpoint. }
  split; [reflexivity|]. split; [exact Hs|].
  destruct (inbound_stream_recorded (demo_env (Some 5)) None 0 1%positive
              demo_context 5 demo_world eq_refl Hs eq_refl)
    as (w' & Hf & _ & Hrec & _).
  exists w'. split; [exact Hf|exact Hrec].
Defined.

(** X24.  Only [lokinet_outbound_stream] bounds its wait.  When the logic
    thread never runs the call handed to it, on a context that is up,
    [lokinet_inbound_stream_filter] never returns, and neither does
    [lokinet_close_stream] for a stream id on record. *)
Theorem unbounded_waits env filter user id inbound a c w :
  heap w !! a = Some c → up (impl c) = true → logic_delay env = None →
  lokinet_inbound_stream_filter env filter user (Some a) w = Blocks
  ∧ (streams c !! id = Some inbound →
     lokinet_close_stream env id (Some a) w = Blocks).
Proof.
  intros Ha Hup Hd.
  unfold lokinet_inbound_stream_filter, lokinet_close_stream. simpl.
  rewrite Ha, Hup, Hd. simpl. split; [done|]. by intros ->.
Qed.

Lemma unbounded_waits_witness :
  heap demo_world !! 1%positive = Some demo_context
  ∧ up (impl demo_context) = true
  ∧ logic_delay (demo_env None) = None
  ∧ lokinet_inbound_stream_filter (demo_env None) None 0 (Some 1%positive)
      demo_world = Blocks.
Proof.
  split; [reflexivity|]. split; [reflexivity|]. split; [reflexivity|].
  exact (proj1 (unbounded_waits (demo_env None) None 0 0 true 1%positive
                  demo_context demo_world eq_refl eq_refl eq_refl)).
Defined.

(** X25.  [lokinet_context_stop] leaves the context live, with its
    streams on record, and without a runner thread; when the router was
    already stopping it is not closed again: the state of the router is
    left as it was. *)
Theorem lokinet_context_stop_keeps_streams a c w :
  heap w !! a = Some c →
  ∃ c', lokinet_context_stop (Some a) w = Ret tt (store a c' w)
      ∧ runner c' = false
      ∧ streams c' = streams c
      ∧ (stopping (impl c) = true → impl c' = impl c)
      ∧ (∀ b, b ≠ a → heap (store a c' w) !! b = heap w !! b).
Proof.
  intros Ha. unfold lokinet_context_stop. simpl. rewrite Ha.
  eexists. split; [done|]. simpl. split_and!; try done.
  - by intros ->.
  - intros b Hb. by rewrite lookup_insert_ne.
Qed.

Lemma lokinet_context_stop_keeps_streams_witness :
  heap demo_world !! 1%positive = Some demo_context
  ∧ ∃ c', lokinet_context_stop (Some 1%positive) demo_world
          = Ret tt (store 1%positive c' demo_world)
        ∧ runner c' = false
        ∧ streams c' = streams demo_context.
Proof.
  split; [reflexivity|].
  destruct (lokinet_context_stop_keeps_streams 1%positive demo_context
              demo_world eq_refl) as (c' & Hs & Hr & Hst & _).
  exists c'. split; [exact Hs|]. split; [exact Hr|exact Hst].
Defined.
End LokinetSharedMore.
